(** * tomo-nf: periodic-activation network and parallel-beam projector

    A shallow embedding of the numerical core of the two notebooks
    ([tomo_siren.ipynb] and the introductory notebook): the coordinate
    grid, the forward projector of an image, the projector of a model,
    and the construction and evaluation of the sine network.

    Numbers are real numbers: array entries are elements of [R] and the
    arithmetic is exact.  Arrays are nested lists, built index by index
    the way the array library defines its operations.  Every result
    below is a statement about this exact-arithmetic reading of the
    code; rounding of machine floats is outside the model. *)

From Stdlib Require Import Reals Lra Lia List ZArith Bool.
Import ListNotations.

Open Scope R_scope.

(* ================================================================== *)
(** * Part I: the program *)

(** ** Arrays as nested lists *)

(** Elementwise combination of two arrays of the same length. *)
Fixpoint zipWith {A B C} (f : A -> B -> C) (u : list A) (v : list B)
  : list C :=
  match u, v with
  | a :: u', b :: v' => f a b :: zipWith f u' v'
  | _, _ => []
  end.

(** [tabulate n f] is the array [f 0, ..., f (n-1)]. *)
Definition tabulate {A} (n : nat) (f : nat -> A) : list A := map f (seq 0 n).

Definition Rsum (l : list R) : R := fold_right Rplus 0 l.

(** [mean] of a one-dimensional array. *)
Definition mean (l : list R) : R := Rsum l / INR (length l).

(** [linspace start stop num]: [num] evenly spaced values from [start]
    to [stop], both included; a single value is [start]. *)
Definition linspace (start stop : R) (num : nat) : list R :=
  tabulate num (fun i => start + INR i * ((stop - start) / INR (num - 1))).

(** ** The coordinate grid *)

(** [torch.meshgrid(x, y, indexing='ij')]: both outputs have one row
    per entry of [x] and one column per entry of [y]. *)
Definition meshgrid_ij (x y : list R) : list (list R) * list (list R) :=
  (map (fun xi => map (fun _ => xi) y) x, map (fun _ => y) x).

(** [torch.stack([u, v], dim=1)] of two flat arrays: an array of pairs. *)
Definition stack_dim1 (u v : list R) : list (R * R) := zipWith pair u v.

(** [image_coordinates(size)]: the normalized coordinates of the
    pixels of an image of the given size. *)
Definition image_coordinates (size : nat * nat) : list (R * R) :=
  let '(r, c) := size in
  let x := linspace (-1) 1 r in
  let y := linspace (-1) 1 c in
  let '(X, Y) := meshgrid_ij x y in
  stack_dim1 (concat X) (concat Y).

(** The property of the grid as the specification words it. *)
Definition grid_as_specified (r c : nat) : Prop :=
  let g := image_coordinates (r, c) in
  length g = (r * c)%nat /\
  (forall p, In p g -> (-1 <= fst p <= 1) /\ (-1 <= snd p <= 1)) /\
  (forall i j, (i < r)%nat -> (j < c)%nat ->
     nth (i * c + j) g (0, 0)
     = (nth i (linspace (-1) 1 r) 0, nth j (linspace (-1) 1 c) 0)) /\
  nth 0 g (0, 0) = (-1, -1) /\
  last g (0, 0) = (1, 1).

(** ** Errors and the random generator *)

(** The exceptions the construction and projection code can raise. *)
Inductive exn : Set := ZeroDivisionError | ValueError | RuntimeError.

Inductive result (A : Type) : Type :=
| Ok (a : A)
| Raise (e : exn).
Arguments Ok {A} a.
Arguments Raise {A} e.

(** The state of the default random generator: the uniform samples of
    [[0, 1)] it is going to hand out, in order. *)
Definition Generator : Type := nat -> R.

Definition fair (g : Generator) : Prop := forall n, 0 <= g n < 1.

(** Computations that draw random numbers and may raise. *)
Definition M (A : Type) : Type := Generator -> result (A * Generator).

Definition ret {A} (a : A) : M A := fun g => Ok (a, g).

Definition bind {A B} (m : M A) (k : A -> M B) : M B :=
  fun g => match m g with
           | Ok (a, g') => k a g'
           | Raise e => Raise e
           end.

Definition raise {A} (e : exn) : M A := fun _ => Raise e.

Notation "x <- m ;; k" := (bind m (fun x => k))
  (at level 61, m at next level, right associativity).

(** One draw: the next sample, and the generator moves on. *)
Definition rand : M R := fun g => Ok (g 0%nat, fun n => g (S n)).

Fixpoint mapM {A B} (f : A -> M B) (l : list A) : M (list B) :=
  match l with
  | [] => ret []
  | a :: l' => b <- f a ;; bs <- mapM f l' ;; ret (b :: bs)
  end.

(** Python's true division of a number by an integer. *)
Definition py_div (a : R) (b : Z) : M R :=
  if (b =? 0)%Z then raise ZeroDivisionError else ret (a / IZR b).

(** Python's true division of two floats. *)
Definition py_fdiv (a b : R) : M R :=
  if Req_dec_T b 0 then raise ZeroDivisionError else ret (a / b).

(** A numpy float is a real number or a non-finite value ([None]). *)
Definition npfloat : Type := option R.

(** numpy's division of a float: a zero divisor gives a non-finite
    value (and a warning), not an exception. *)
Definition np_div (a b : R) : npfloat :=
  if Req_dec_T b 0 then None else Some (a / b).

(** [range(n)]: empty for a non-positive [n]. *)
Definition range (n : Z) : list Z := map Z.of_nat (seq 0 (Z.to_nat n)).

(** ** Tensors and [nn.Linear] *)

Definition Tensor1 : Type := list R.
Definition Tensor2 : Type := list (list R).

(** [torch.empty(rows, cols)]; a negative size is refused. *)
Definition torch_empty (rows cols : Z) : M Tensor2 :=
  if ((rows <? 0) || (cols <? 0))%Z then raise RuntimeError
  else ret (repeat (repeat 0 (Z.to_nat cols)) (Z.to_nat rows)).

(** [t.uniform_(from, to)]: every entry is overwritten with a fresh
    sample of the uniform distribution on [[from, to)], that is
    [from + (to - from) * u] for the generator's next [u].  A bound that
    is not finite, or [from > to], is refused. *)
Definition uniform_entry (lo hi : R) : M R :=
  u <- rand ;; ret (lo + (hi - lo) * u).

Definition uniform1_ (t : Tensor1) (from to : npfloat) : M Tensor1 :=
  match from, to with
  | Some lo, Some hi =>
      if Rlt_dec hi lo then raise RuntimeError
      else mapM (fun _ => uniform_entry lo hi) t
  | _, _ => raise RuntimeError
  end.

Definition uniform_ (t : Tensor2) (from to : npfloat) : M Tensor2 :=
  match from, to with
  | Some lo, Some hi =>
      if Rlt_dec hi lo then raise RuntimeError
      else mapM (mapM (fun _ => uniform_entry lo hi)) t
  | _, _ => raise RuntimeError
  end.

Record Linear : Type := mkLinear {
  weight : Tensor2;            (* shape (out_features, in_features) *)
  bias : option Tensor1        (* shape (out_features), when present *)
}.

(** [nn.Linear(indim, outdim, bias)] with the library's default
    initialisation: weight and bias uniform within
    [1/sqrt(indim)] of zero; a tensor without elements is left alone. *)
Definition nn_Linear (indim outdim : Z) (with_bias : bool) : M Linear :=
  w0 <- torch_empty outdim indim ;;
  let k := if (0 <? indim)%Z then 1 / sqrt (IZR indim) else 0 in
  w <- (if ((indim =? 0) || (outdim =? 0))%Z then ret w0
        else uniform_ w0 (Some (- k)) (Some k)) ;;
  b <- (if with_bias
        then b <- uniform1_ (repeat 0 (Z.to_nat outdim)) (Some (- k)) (Some k) ;;
             ret (Some b)
        else ret None) ;;
  ret (mkLinear w b).

Definition dot (u v : list R) : R := Rsum (zipWith Rmult u v).

(** [linear(input)]: entry [(n, k)] of the output is the product of
    row [n] of the input with row [k] of the weight, plus [bias[k]].
    Meant for input rows as long as the weight rows; the library
    refuses any other width. *)
Definition Linear_forward (l : Linear) (input : Tensor2) : Tensor2 :=
  map (fun x =>
         let y := map (fun w => dot x w) (weight l) in
         match bias l with
         | Some b => zipWith Rplus y b
         | None => y
         end) input.

(** ** The sine layer and the network ([tomo_siren.ipynb]) *)

Record SineLayer : Type := mkSineLayer {
  omega : R;
  is_first : bool;
  indim : Z;
  linear : Linear
}.

(** [SineLayer.__init__(indim, outdim, bias, is_first, omega)]. *)
Definition SineLayer_init (indim outdim : Z) (with_bias is_first : bool)
    (omega : R) : M SineLayer :=
  linear0 <- nn_Linear indim outdim with_bias ;;
  w <- (if is_first then
          lo <- py_div (-1) indim ;;
          hi <- py_div 1 indim ;;
          uniform_ (weight linear0) (Some lo) (Some hi)
        else
          q1 <- py_div 6 indim ;;
          q2 <- py_div 6 indim ;;
          uniform_ (weight linear0)
                   (np_div (- sqrt q1) omega) (np_div (sqrt q2) omega)) ;;
  ret (mkSineLayer omega is_first indim (mkLinear w (bias linear0))).

(** [SineLayer.forward(input)]. *)
Definition SineLayer_forward (l : SineLayer) (input : Tensor2) : Tensor2 :=
  map (map (fun v => sin (omega l * v))) (Linear_forward (linear l) input).

(** The members of the [nn.Sequential] of a network. *)
Inductive Layer : Type :=
| Sine (l : SineLayer)
| Plain (l : Linear).

(** [Siren.__init__(indim, outdim, nr_hidden, hiddendim,
                    outermost_linear, first_omega, hidden_omega)]. *)
Definition Siren_init (indim outdim nr_hidden hiddendim : Z)
    (outermost_linear : bool) (first_omega hidden_omega : R)
  : M (list Layer) :=
  first <- SineLayer_init indim hiddendim true true first_omega ;;
  hidden <- mapM (fun _ => SineLayer_init hiddendim hiddendim true false
                                          hidden_omega)
                 (range nr_hidden) ;;
  final <- (if outermost_linear then
              final_linear <- nn_Linear hiddendim outdim true ;;
              q1 <- py_div 6 hiddendim ;;
              q2 <- py_div 6 hiddendim ;;
              w <- uniform_ (weight final_linear)
                            (np_div (- sqrt q1) hidden_omega)
                            (np_div (sqrt q2) hidden_omega) ;;
              ret (Plain (mkLinear w (bias final_linear)))
            else
              l <- SineLayer_init hiddendim outdim true false hidden_omega ;;
              ret (Sine l)) ;;
  ret ((Sine first :: map Sine hidden) ++ [final]).

Definition Layer_forward (l : Layer) (x : Tensor2) : Tensor2 :=
  match l with
  | Sine s => SineLayer_forward s x
  | Plain p => Linear_forward p x
  end.

(** [Siren.forward(coords)]: the layers applied in order. *)
Definition Siren_forward (net : list Layer) (coords : Tensor2) : Tensor2 :=
  fold_left (fun x l => Layer_forward l x) net coords.

(** The outputs of the sine layers met while evaluating the network. *)
Fixpoint periodic_activations (net : list Layer) (x : Tensor2)
  : list Tensor2 :=
  match net with
  | [] => []
  | l :: rest =>
      let y := Layer_forward l x in
      match l with
      | Sine _ => y :: periodic_activations rest y
      | Plain _ => periodic_activations rest y
      end
  end.

(** ** The sine layer and the network of the introductory notebook

    The same two classes as they stand in the introductory notebook:
    the layer keeps only [omega] and its linear map, the bound is
    computed once with Python's own arithmetic, and the network always
    ends with a plain linear layer. *)

Module Intro.

Record SineLayer : Type := mkSineLayer {
  omega : R;
  linear : Linear
}.

(** [SineLayer.__init__(indim, outdim, bias, is_first, omega)];
    [(6 / indim)**0.5] is the square root. *)
Definition SineLayer_init (indim outdim : Z) (with_bias is_first : bool)
    (omega : R) : M SineLayer :=
  linear0 <- nn_Linear indim outdim with_bias ;;
  w <- (if is_first then py_div 1 indim
        else q <- py_div 6 indim ;; py_fdiv (sqrt q) omega) ;;
  weight' <- uniform_ (weight linear0) (Some (- w)) (Some w) ;;
  ret (mkSineLayer omega (mkLinear weight' (bias linear0))).

(** [SineLayer.forward(input)]. *)
Definition SineLayer_forward (l : SineLayer) (input : Tensor2) : Tensor2 :=
  map (map (fun v => sin (omega l * v))) (Linear_forward (linear l) input).

Inductive Layer : Type :=
| Sine (l : SineLayer)
| Plain (l : Linear).

(** [Siren.__init__(indim, outdim, nr_hidden, hiddendim, first_omega,
                    hidden_omega)]. *)
Definition Siren_init (indim outdim nr_hidden hiddendim : Z)
    (first_omega hidden_omega : R) : M (list Layer) :=
  first <- SineLayer_init indim hiddendim true true first_omega ;;
  hidden <- mapM (fun _ => SineLayer_init hiddendim hiddendim true false
                                          hidden_omega)
                 (range nr_hidden) ;;
  final_linear <- nn_Linear hiddendim outdim true ;;
  q <- py_div 6 hiddendim ;;
  w <- py_fdiv (sqrt q) hidden_omega ;;
  weight' <- uniform_ (weight final_linear) (Some (- w)) (Some w) ;;
  ret ((Sine first :: map Sine hidden)
         ++ [Plain (mkLinear weight' (bias final_linear))]).

End Intro.

(** What the introductory notebook's layer keeps of a layer. *)
Definition to_intro (l : SineLayer) : Intro.SineLayer :=
  Intro.mkSineLayer (omega l) (linear l).

Definition to_intro_layer (l : Layer) : Intro.Layer :=
  match l with
  | Sine s => Intro.Sine (to_intro s)
  | Plain p => Intro.Plain p
  end.

(** The result of a computation, seen through a map on its value. *)
Definition fmap {A B} (f : A -> B) (m : M A) : M B :=
  a <- m ;; ret (f a).

(** ** The forward projector of an image *)

Definition Rltb (a b : R) : bool := if Rlt_dec a b then true else false.

(** [np.searchsorted(grid, x)] on an ascending grid: the number of
    grid values below [x]. *)
Definition searchsorted (grid : list R) (x : R) : nat :=
  length (filter (fun g => Rltb g x) grid).

(** The interpolator's cell search along one axis: the index of the
    cell's lower grid line, clipped to the grid, and the position of
    [x] in the cell as a fraction of its width. *)
Definition find_index (grid : list R) (x : R) : nat * R :=
  let i := Nat.min (searchsorted grid x - 1) (length grid - 2) in
  (i, (x - nth i grid 0) / (nth (S i) grid 0 - nth i grid 0)).

Definition out_of_bounds (grid : list R) (x : R) : bool :=
  Rltb x (hd 0 grid) || Rltb (last grid 0) x.

(** [scipy.interpolate.RegularGridInterpolator((gx, gy), values,
    bounds_error=False, fill_value=fill)] called at one point: the
    weighted sum of the four corners of the cell, and [fill] for a
    point outside the grid. *)
Definition RegularGridInterpolator (gx gy : list R) (values : Tensor2)
    (fill_value : R) (p : R * R) : R :=
  let '(x, y) := p in
  let '(i, tx) := find_index gx x in
  let '(j, ty) := find_index gy y in
  let v a b := nth b (nth a values []) 0 in
  let value :=
    (1 - tx) * (1 - ty) * v i j + (1 - tx) * ty * v i (S j)
    + tx * (1 - ty) * v (S i) j + tx * ty * v (S i) (S j) in
  if out_of_bounds gx x || out_of_bounds gy y then fill_value else value.

Definition Tensor3 : Type := list (list (list R)).

Definition shape2 (t : Tensor2) : nat * nat :=
  (length t, length (hd [] t)).

(** [m[..., None] * v]: a new last axis, multiplied with [v]. *)
Definition outer_mul (m : Tensor2) (v : list R) : Tensor3 :=
  map (map (fun a => map (fun c => a * c) v)) m.

Definition zipWith3 {A B C} (f : A -> B -> C)
    (u : list (list (list A))) (v : list (list (list B)))
  : list (list (list C)) :=
  zipWith (zipWith (zipWith f)) u v.

(** [val.mean(axis=0)]: the mean over the first index. *)
Definition mean_axis0 (v : Tensor3) : Tensor2 :=
  let n1 := length (hd [] v) in
  let n2 := length (hd [] (hd [] v)) in
  tabulate n1 (fun j =>
    tabulate n2 (fun t => mean (map (fun vi => nth t (nth j vi []) 0) v))).

(** [m.T]. *)
Definition transpose (m : Tensor2) : Tensor2 :=
  let '(n0, n1) := shape2 m in
  tabulate n1 (fun t => tabulate n0 (fun j => nth t (nth j m []) 0)).

(** [np.linspace(start, stop, num)]; a negative [num] is refused. *)
Definition np_linspace (start stop : R) (num : Z) : result (list R) :=
  if (num <? 0)%Z then Raise ValueError
  else Ok (linspace start stop (Z.to_nat num)).

(** [nr_S or nr_B]: the second operand when the first is [None] or 0. *)
Definition py_or (a : option Z) (b : Z) : Z :=
  match a with
  | Some n => if (n =? 0)%Z then b else n
  | None => b
  end.

(** The rotated sampling grid of [project_image]: the arrays [X] and
    [Y], indexed by (position on the [b] axis, position on the [s]
    axis, angle). *)
Definition rotated_grid (b s thetas : list R) : Tensor3 * Tensor3 :=
  let '(gB, gS) := meshgrid_ij b s in
  let cos_a := map cos thetas in
  let sin_a := map sin thetas in
  let X := zipWith3 Rminus (outer_mul gS cos_a) (outer_mul gB sin_a) in
  let Y := zipWith3 Rplus (outer_mul gS sin_a) (outer_mul gB cos_a) in
  (X, Y).

(** The interpolator [project_image] builds: the image on the
    normalized grid of its own shape, zero outside. *)
Definition interp_image (image : Tensor2) : R * R -> R :=
  let '(r, c) := shape2 image in
  RegularGridInterpolator (linspace (-1) 1 r) (linspace (-1) 1 c) image 0.

(** The array [val] of [project_image]: the interpolated image at every
    point of the rotated grid. *)
Definition sample_values (image : Tensor2) (b s thetas : list R) : Tensor3 :=
  let '(X, Y) := rotated_grid b s thetas in
  let interp := interp_image image in
  zipWith3 (fun x y => interp (x, y)) X Y.

(** [project_image(image, thetas, nr_B, nr_S)].  Meant for
    [nr_B >= 1]: with no bin at all the array library returns rows
    without entries (or of NaN), which nested lists do not show. *)
Definition project_image (image : Tensor2) (thetas : list R)
    (nr_B : Z) (nr_S : option Z) : result Tensor2 :=
  let nr_S := py_or nr_S nr_B in
  match np_linspace (-1) 1 nr_B, np_linspace (-1) 1 nr_S with
  | Ok b, Ok s =>
      let val := sample_values image b s thetas in
      let p := transpose (mean_axis0 val) in
      Ok p
  | Raise e, _ => Raise e
  | _, Raise e => Raise e
  end.

(** ** The forward projector of a model *)

(** [tf.meshgrid(b, s, indexing='xy')]: both outputs have one row per
    entry of [s] and one column per entry of [b]. *)
Definition meshgrid_xy (b s : list R) : Tensor2 * Tensor2 :=
  (map (fun _ => b) s, map (fun si => map (fun _ => si) b) s).

(** [tf.stack([B, S], -1)] followed by [tf.reshape(pts, [-1, 2])]: one
    row [[B_ij; S_ij]] per grid position, row-major. *)
Definition stack_flat (gB gS : Tensor2) : Tensor2 :=
  concat (zipWith (zipWith (fun x y => [x; y])) gB gS).

(** [tf.reduce_sum(pts[..., None, :] * rot, -1)]: every row of [pts]
    multiplied with every row of [rot]. *)
Definition apply_rot (rot pts : Tensor2) : Tensor2 :=
  map (fun p => map (fun row => Rsum (zipWith Rmult p row)) rot) pts.

(** The sample points of [project_model] at one angle, before they are
    encoded and handed to the model. *)
Definition model_points (theta : R) (nr_B nr_S : nat) : Tensor2 :=
  let b := linspace (-1) 1 nr_B in
  let s := linspace (-1) 1 nr_S in
  let '(gB, gS) := meshgrid_xy b s in
  let pts_flat := stack_flat gB gS in
  let cos_a := cos theta in
  let sin_a := sin theta in
  let rot := [[sin_a; cos_a]; [cos_a; - sin_a]] in
  apply_rot rot pts_flat.

(** [tf.reshape(out, (rows, cols))] of an array with [rows * cols]
    entries. *)
Definition reshape2 (rows cols : nat) (out : Tensor2) : Tensor2 :=
  let flat := concat out in
  tabulate rows (fun k => tabulate cols (fun l => nth (k * cols + l) flat 0)).

(** [project_model(model, theta, nr_B, nr_S, L_embed)].  The encoding
    [posenc] is not defined in the notebook; it is a parameter here.
    The model is any map from a batch of encoded points to a batch of
    one-entry rows.  The counts are natural numbers and the function
    is meant for [nr_S >= 1]: at [nr_S = 0] the code raises
    [ZeroDivisionError] in [w = 1/nr_S], which this definition does
    not show. *)
Definition project_model (posenc : Z -> Tensor2 -> Tensor2)
    (model : Tensor2 -> Tensor2) (theta : R) (nr_B nr_S : nat) (L_embed : Z)
  : list R :=
  let pts_flat := model_points theta nr_B nr_S in
  let pts_flat := posenc L_embed pts_flat in
  let out := model pts_flat in
  let out := reshape2 nr_B nr_S out in
  let w := 1 / INR nr_S in
  map (fun row => w * Rsum row) out.

(** The point the specification names for detector coordinate [b] and
    ray coordinate [s] at angle [theta]. *)
Definition specified_point (theta b s : R) : R * R :=
  (s * cos theta - b * sin theta, s * sin theta + b * cos theta).

Definition outside_square (x y : R) : Prop :=
  x < -1 \/ 1 < x \/ y < -1 \/ 1 < y.

(** ** Properties as the specification words them *)

(** The sinogram as documented: one row per angle, one entry per
    detector bin, each entry the mean of the image along the bin's
    ray (the ray coordinate [s] varies, the bin coordinate [b] is
    fixed). *)
Definition project_as_specified (image : Tensor2) (thetas : list R)
    (nr_B nr_S : nat) : Tensor2 :=
  map (fun theta =>
         map (fun bi =>
                mean (map (fun sj =>
                             interp_image image (specified_point theta bi sj))
                          (linspace (-1) 1 nr_S)))
             (linspace (-1) 1 nr_B))
      thetas.

(** Mirror symmetry: the sinogram row at [theta + PI] is the row at
    [theta] with the bins in reverse order. *)
Definition mirrored_rows (image : Tensor2) (theta : R)
    (nr_B : Z) (nr_S : option Z) : Prop :=
  exists row,
    project_image image [theta] nr_B nr_S = Ok [row] /\
    project_image image [theta + PI] nr_B nr_S = Ok [rev row].

(** The model projector samples the specified point for every position
    of its grid ([b] runs along the rows of the flattened mesh). *)
Definition model_samples_specified_points (theta : R) (nr_B nr_S : nat)
  : Prop :=
  forall i j, (i < nr_S)%nat -> (j < nr_B)%nat ->
    let p := specified_point theta (nth j (linspace (-1) 1 nr_B) 0)
                                   (nth i (linspace (-1) 1 nr_S) 0) in
    nth (i * nr_B + j) (model_points theta nr_B nr_S) [] = [fst p; snd p].

(** A sample outside the square contributes zero to the projection of
    a model. *)
Definition model_zero_outside (posenc : Z -> Tensor2 -> Tensor2)
    (model : Tensor2 -> Tensor2) (theta : R) (nr_B nr_S : nat) (L_embed : Z)
  : Prop :=
  forall n x y,
    nth_error (model_points theta nr_B nr_S) n = Some [x; y] ->
    outside_square x y ->
    nth n (model (posenc L_embed (model_points theta nr_B nr_S))) [] = [0].

(** Construction with the given configuration is rejected: it raises,
    whatever the state of the generator. *)
Definition rejected {A} (m : M A) : Prop :=
  forall g, exists e, m g = Raise e.

(** Construction with the given configuration goes through. *)
Definition accepted {A} (m : M A) : Prop :=
  forall g, fair g -> exists a g', m g = Ok (a, g').

(** ** Concrete data used in the examples *)

Definition image_1234 : Tensor2 := [[1; 2]; [3; 4]].

(** A network of one sine layer and a plain output layer that takes the
    value 1 at every point. *)
Definition one_everywhere : list Layer :=
  [Sine (mkSineLayer 30 true 2 (mkLinear [[0; 0]] (Some [0])));
   Plain (mkLinear [[0]] (Some [1]))].

(** An encoding that leaves the points as they are. *)
Definition no_encoding (L_embed : Z) (pts : Tensor2) : Tensor2 := pts.

Definition half : Generator := fun _ => 1 / 2.

(** A model that acts on every point of the batch by itself. *)
Definition pointwise (f : list R -> R) : Tensor2 -> Tensor2 :=
  map (fun p => [f p]).

(** ** Shapes, bounds and outcomes of construction *)

Definition has_shape (rows cols : nat) (t : Tensor2) : Prop :=
  length t = rows /\ Forall (fun row => length row = cols) t.

Definition entries_within (lo hi : R) (t : Tensor2) : Prop :=
  Forall (Forall (fun v => lo <= v <= hi)) t.

(** The computation succeeds from every fair generator, leaves a fair
    generator behind, and its result satisfies [P]. *)
Definition succeeds_with {A} (P : A -> Prop) (m : M A) : Prop :=
  forall g, fair g -> exists a g', m g = Ok (a, g') /\ fair g' /\ P a.

(** The bound of the initial weights of a sine layer. *)
Definition init_bound (is_first : bool) (indim : Z) (omega : R) : R :=
  if is_first then 1 / IZR indim else sqrt (6 / IZR indim) / omega.

(** What a successful construction of a sine layer returns. *)
Definition SineLayer_fresh (n_in n_out : Z) (first : bool) (om : R)
    (l : SineLayer) : Prop :=
  omega l = om /\ is_first l = first /\ indim l = n_in /\
  has_shape (Z.to_nat n_out) (Z.to_nat n_in) (weight (linear l)) /\
  entries_within (- init_bound first n_in om) (init_bound first n_in om)
                 (weight (linear l)).

(** What a successful construction of a network returns: the first
    sine layer, the hidden sine layers, and the output layer. *)
Definition Siren_fresh (nr_hidden hiddendim : Z) (outermost_linear : bool)
    (first_omega hidden_omega : R) (net : list Layer) : Prop :=
  exists first hidden final,
    net = (Sine first :: map Sine hidden) ++ [final] /\
    is_first first = true /\ omega first = first_omega /\
    length hidden = Z.to_nat nr_hidden /\
    Forall (fun l => is_first l = false /\ omega l = hidden_omega) hidden /\
    if outermost_linear
    then exists lin, final = Plain lin /\
           entries_within (- (sqrt (6 / IZR hiddendim) / hidden_omega))
                          (sqrt (6 / IZR hiddendim) / hidden_omega)
                          (weight lin)
    else exists l, final = Sine l /\ is_first l = false /\
           omega l = hidden_omega.

(** ** The forward pass as the specification writes it *)

Definition column (j : nat) (m : Tensor2) : list R :=
  map (fun row => nth j row 0) m.

(** The matrix product [a @ b]. *)
Definition matmul (a b : Tensor2) : Tensor2 :=
  let '(_, p) := shape2 b in
  map (fun row => tabulate p (fun j => dot row (column j b))) a.

(** [m + v], the vector added to every row. *)
Definition add_rowwise (m : Tensor2) (v : list R) : Tensor2 :=
  map (fun row => zipWith Rplus row v) m.

(** [sin(omega * (x @ W^T + b))], elementwise. *)
Definition forward_as_specified (W : Tensor2) (b : list R) (omega : R)
    (x : Tensor2) : Tensor2 :=
  map (map sin)
      (map (map (fun v => omega * v))
           (add_rowwise (matmul x (transpose W)) b)).

(* ================================================================== *)
(** * Further code of the notebooks *)

Definition inside_square (x y : R) : Prop :=
  -1 <= x <= 1 /\ -1 <= y <= 1.

(** An image with the same value in every pixel. *)
Definition full (r c : nat) (v : R) : Tensor2 := repeat (repeat v c) r.

(** Pixelwise sum and multiple of images. *)
Definition image_add (a b : Tensor2) : Tensor2 := zipWith (zipWith Rplus) a b.

Definition image_scale (k : R) (a : Tensor2) : Tensor2 :=
  map (map (fun v => k * v)) a.

(** ** Evaluation of a model on the image grid *)

(** The points [evaluate_model] hands to the model: the flattened
    ['xy'] mesh of one axis with itself. *)
Definition evaluate_points (N : nat) : Tensor2 :=
  let l := linspace (-1) 1 N in
  let '(gi, gj) := meshgrid_xy l l in
  stack_flat gi gj.

(** [evaluate_model(model, N, L_embed)]; [posenc] is a parameter as
    in [project_model]. *)
Definition evaluate_model (posenc : Z -> Tensor2 -> Tensor2)
    (model : Tensor2 -> Tensor2) (N : nat) (L_embed : Z) : Tensor2 :=
  let pts_flat := evaluate_points N in
  let pts_flat := posenc L_embed pts_flat in
  let out := model pts_flat in
  reshape2 N N out.

(** The coordinates of [image_coordinates] as the rows of a batch. *)
Definition coords_batch (coords : list (R * R)) : Tensor2 :=
  map (fun p => [fst p; snd p]) coords.

(** ** Shapes of layers and networks *)

(** A linear map from [n_in] to [n_out] values, with its bias. *)
Definition Linear_shaped (n_in n_out : nat) (l : Linear) : Prop :=
  has_shape n_out n_in (weight l) /\
  exists b, bias l = Some b /\ length b = n_out.

Definition Layer_linear (l : Layer) : Linear :=
  match l with
  | Sine s => linear s
  | Plain p => p
  end.

Definition Layer_shaped (n_in n_out : nat) (l : Layer) : Prop :=
  Linear_shaped n_in n_out (Layer_linear l).

(** The shapes of a network of [nr_hidden] hidden layers of width
    [h] between [n_in] inputs and [n_out] outputs. *)
Definition Siren_shaped (n_in n_out nr_hidden h : nat) (net : list Layer)
  : Prop :=
  exists first hidden final,
    net = (first :: hidden) ++ [final] /\
    Layer_shaped n_in h first /\
    length hidden = nr_hidden /\
    Forall (Layer_shaped h h) hidden /\
    Layer_shaped h n_out final.

(** ** The parameters of a model and their count *)

Inductive Param : Type :=
| PWeight (w : Tensor2)
| PBias (b : Tensor1).

(** [param.shape] as a tuple. *)
Definition param_shape (p : Param) : list nat :=
  match p with
  | PWeight w => [length w; length (hd [] w)]
  | PBias b => [length b]
  end.

(** [param.numel()]. *)
Definition numel (p : Param) : nat :=
  match p with
  | PWeight w => length (concat w)
  | PBias b => length b
  end.

(** [model.parameters()]: weight, then bias, layer after layer. *)
Definition Linear_parameters (l : Linear) : list Param :=
  PWeight (weight l) ::
  match bias l with
  | Some b => [PBias b]
  | None => []
  end.

Definition parameters (net : list Layer) : list Param :=
  flat_map (fun l => Linear_parameters (Layer_linear l)) net.

(** The loop that collects the shapes and counts the parameters:
    the state is [(params_shapes, params_total_number)]. *)
Definition count_parameters (net : list Layer) : list (list nat) * nat :=
  fold_left (fun '(params_shapes, params_total_number) param =>
               (params_shapes ++ [param_shape param],
                (params_total_number + numel param)%nat))
            (parameters net) ([], 0%nat).

(** ** The loss *)

(** [pred.squeeze()] of a batch of one-entry rows, [target.flatten()]. *)
Definition squeeze (t : Tensor2) : Tensor1 := concat t.
Definition flatten (t : Tensor2) : Tensor1 := concat t.

(** [diff = pred.squeeze() - target.flatten()],
    [loss = diff.pow(2).mean()]; meant for a prediction and a target
    with the same number of values. *)
Definition loss (pred target : Tensor2) : R :=
  let diff := zipWith Rminus (squeeze pred) (flatten target) in
  mean (map (fun d => d ^ 2) diff).

(* ================================================================== *)
(** * The forward pass on machine floats

    A machine float is a real number or a non-finite value (infinity
    or NaN), written [None].  What multiplication and addition round
    to, and when they overflow, is left open: the operations are
    parameters.  The sine is a parameter too, known only by what the
    floating-point standard promises of it. *)

Record FloatOps : Type := mkFloatOps {
  fmul : npfloat -> npfloat -> npfloat;
  fadd : npfloat -> npfloat -> npfloat;
  fsin : npfloat -> npfloat
}.

(** A value that lies in [[-1, 1]]: a finite one within the bounds. *)
Definition in_unit (v : npfloat) : Prop :=
  exists y, v = Some y /\ -1 <= y <= 1.

(** The sine of a finite value is a finite value in [[-1, 1]]; the
    sine of infinity or NaN is NaN. *)
Definition sin_contract (ops : FloatOps) : Prop :=
  fsin ops None = None /\ forall v, in_unit (fsin ops (Some v)).

Definition FTensor2 : Type := list (list npfloat).

Record FLinear : Type := mkFLinear {
  fweight : FTensor2;
  fbias : option (list npfloat)
}.

Record FSineLayer : Type := mkFSineLayer {
  fomega : npfloat;
  flinear : FLinear
}.

Definition fdot (ops : FloatOps) (u v : list npfloat) : npfloat :=
  fold_right (fadd ops) (Some 0) (zipWith (fmul ops) u v).

(** [linear(input)] on floats. *)
Definition FLinear_forward (ops : FloatOps) (l : FLinear) (input : FTensor2)
  : FTensor2 :=
  map (fun x =>
         let y := map (fun w => fdot ops x w) (fweight l) in
         match fbias l with
         | Some b => zipWith (fadd ops) y b
         | None => y
         end) input.

(** [self.omega * self.linear(input)], the argument of the sine. *)
Definition FSineLayer_preactivation (ops : FloatOps) (l : FSineLayer)
    (input : FTensor2) : FTensor2 :=
  map (map (fun v => fmul ops (fomega l) v)) (FLinear_forward ops (flinear l) input).

(** [SineLayer.forward(input)] on floats. *)
Definition FSineLayer_forward (ops : FloatOps) (l : FSineLayer)
    (input : FTensor2) : FTensor2 :=
  map (map (fsin ops)) (FSineLayer_preactivation ops l input).

Inductive FLayer : Type :=
| FSine (l : FSineLayer)
| FPlain (l : FLinear).

Definition FLayer_forward (ops : FloatOps) (l : FLayer) (x : FTensor2)
  : FTensor2 :=
  match l with
  | FSine s => FSineLayer_forward ops s x
  | FPlain p => FLinear_forward ops p x
  end.

(** The outputs of the sine layers met while evaluating a network. *)
Fixpoint Fperiodic_activations (ops : FloatOps) (net : list FLayer)
    (x : FTensor2) : list FTensor2 :=
  match net with
  | [] => []
  | l :: rest =>
      let y := FLayer_forward ops l x in
      match l with
      | FSine _ => y :: Fperiodic_activations ops rest y
      | FPlain _ => Fperiodic_activations ops rest y
      end
  end.

(** An output entry [e] against its pre-activation [p]: in [[-1, 1]]
    when [p] is finite, NaN when it is not. *)
Definition sine_of_preactivation (p e : npfloat) : Prop :=
  match p with
  | Some _ => in_unit e
  | None => e = None
  end.

Definition unit_or_nan (e : npfloat) : Prop := e = None \/ in_unit e.

(** The bound as the claim words it: every output entry of every
    layer on every input lies in [[-1, 1]]. *)
Definition always_in_unit (ops : FloatOps) : Prop :=
  forall l x, Forall (Forall in_unit) (FSineLayer_forward ops l x).

(** Float operations without rounding or overflow: exact on finite
    values, and a non-finite operand gives a non-finite result. *)
Definition lift2 (f : R -> R -> R) (a b : npfloat) : npfloat :=
  match a, b with
  | Some x, Some y => Some (f x y)
  | _, _ => None
  end.

Definition exact_ops : FloatOps :=
  mkFloatOps (lift2 Rmult) (lift2 Rplus) (option_map sin).

(** A layer and a batch of finite values, as floats. *)
Definition to_floats (t : Tensor2) : FTensor2 := map (map Some) t.

Definition to_float_layer (l : SineLayer) : FSineLayer :=
  mkFSineLayer (Some (omega l))
               (mkFLinear (to_floats (weight (linear l)))
                          (option_map (map Some) (bias (linear l)))).

(** A layer with finite parameters, and a batch whose first
    coordinate is NaN. *)
Definition finite_layer : FSineLayer :=
  mkFSineLayer (Some 30) (mkFLinear [[Some 1; Some 1]] (Some [Some 0])).

Definition nan_batch : FTensor2 := [[None; Some 0]].

(* ================================================================== *)
(** * Part II: properties *)

(** ** Arrays, sums and evenly spaced axes *)

Lemma zipWith_length {A B C} (f : A -> B -> C) u v :
  length (zipWith f u v) = Nat.min (length u) (length v).
Proof.
  revert v; induction u as [|a u IH]; intros [|b v]; simpl; auto.
Qed.

Lemma zipWith_nth {A B C} (f : A -> B -> C) u v i da db dc :
  (i < length u)%nat -> (i < length v)%nat ->
  nth i (zipWith f u v) dc = f (nth i u da) (nth i v db).
Proof.
  revert v i; induction u as [|a u IH]; intros [|b v] [|i]; simpl;
    intros; try lia; auto.
  apply IH; lia.
Qed.

Lemma tabulate_length {A} n (f : nat -> A) : length (tabulate n f) = n.
Proof. unfold tabulate. now rewrite length_map, length_seq. Qed.

Lemma tabulate_nth {A} n (f : nat -> A) i d :
  (i < n)%nat -> nth i (tabulate n f) d = f i.
Proof.
  intros Hi. unfold tabulate.
  rewrite (nth_indep _ d (f 0%nat)) by now rewrite length_map, length_seq.
  rewrite map_nth, seq_nth; auto.
Qed.

Lemma tabulate_ext {A} n (f g : nat -> A) :
  (forall i, (i < n)%nat -> f i = g i) -> tabulate n f = tabulate n g.
Proof.
  intros H. unfold tabulate. apply map_ext_in.
  intros i Hi. apply in_seq in Hi. apply H. lia.
Qed.

Lemma tabulate_rev {A} n (f : nat -> A) :
  rev (tabulate n f) = tabulate n (fun i => f (n - 1 - i)%nat).
Proof.
  induction n as [|n IH].
  - reflexivity.
  - unfold tabulate in *.
    assert (E : map f (seq 0 (S n)) = map f (seq 0 n) ++ [f n])
      by now rewrite seq_S, map_app.
    rewrite E, rev_app_distr, IH.
    change (seq 0 (S n)) with (0%nat :: seq 1 n).
    rewrite <- seq_shift, map_cons, map_map.
    replace (S n - 1 - 0)%nat with n by lia.
    cbn [app rev]. f_equal. apply map_ext_in.
    intros i Hi. apply in_seq in Hi. f_equal. lia.
Qed.

Lemma Rsum_app u v : Rsum (u ++ v) = Rsum u + Rsum v.
Proof. induction u; simpl; lra. Qed.

Lemma Rsum_rev l : Rsum (rev l) = Rsum l.
Proof.
  induction l as [|a l IH]; simpl; auto.
  rewrite Rsum_app, IH. simpl. lra.
Qed.

Lemma mean_rev l : mean (rev l) = mean l.
Proof. unfold mean. now rewrite Rsum_rev, length_rev. Qed.

Lemma linspace_length a b n : length (linspace a b n) = n.
Proof. apply tabulate_length. Qed.

Lemma linspace_nth a b n i d :
  (i < n)%nat ->
  nth i (linspace a b n) d = a + INR i * ((b - a) / INR (n - 1)).
Proof. intros. unfold linspace. now rewrite tabulate_nth. Qed.

Lemma linspace_first a b n d : (1 <= n)%nat -> nth 0 (linspace a b n) d = a.
Proof. intros. rewrite linspace_nth by lia. simpl. lra. Qed.

Lemma linspace_last a b n d :
  (2 <= n)%nat -> nth (n - 1) (linspace a b n) d = b.
Proof.
  intros. rewrite linspace_nth by lia.
  assert (0 < INR (n - 1)) by (apply lt_0_INR; lia).
  field. lra.
Qed.

Lemma linspace_one a b : linspace a b 1 = [a].
Proof. unfold linspace, tabulate. simpl. f_equal. lra. Qed.

Lemma linspace_bounds a b n i d :
  a <= b -> (i < n)%nat -> a <= nth i (linspace a b n) d <= b.
Proof.
  intros Hab Hi. rewrite linspace_nth by lia.
  destruct (Nat.eq_dec n 1) as [->|Hn].
  - assert (i = 0%nat) by lia. subst. simpl. lra.
  - assert (Hpos : 0 < INR (n - 1)) by (apply lt_0_INR; lia).
    assert (Hi' : 0 <= INR i <= INR (n - 1)).
    { split; [apply pos_INR | apply le_INR; lia]. }
    set (k := INR i) in *. set (m := INR (n - 1)) in *.
    replace (a + k * ((b - a) / m)) with (a + (k / m) * (b - a))
      by (field; lra).
    assert (0 <= k / m <= 1).
    { split.
      - apply Rmult_le_pos; [lra | left; now apply Rinv_0_lt_compat].
      - apply (Rmult_le_reg_r m); [lra|].
        unfold Rdiv. rewrite Rmult_assoc, Rinv_l by lra. lra. }
    nra.
Qed.

(** The values of a symmetric axis mirror around zero. *)
Lemma linspace_mirror n i d :
  (2 <= n)%nat -> (i < n)%nat ->
  nth (n - 1 - i) (linspace (-1) 1 n) d = - nth i (linspace (-1) 1 n) d.
Proof.
  intros Hn Hi. rewrite !linspace_nth by lia.
  assert (Hpos : 0 < INR (n - 1)) by (apply lt_0_INR; lia).
  rewrite minus_INR by lia. field. lra.
Qed.

Lemma zipWith_app {A B C} (f : A -> B -> C) u1 u2 v1 v2 :
  length u1 = length v1 ->
  zipWith f (u1 ++ u2) (v1 ++ v2) = zipWith f u1 v1 ++ zipWith f u2 v2.
Proof.
  revert v1; induction u1 as [|a u1 IH]; intros [|b v1]; simpl;
    intros H; try discriminate; auto.
  f_equal. apply IH. lia.
Qed.

Lemma zipWith_map_l {A B C} (f : A -> B -> C) (a : A) v :
  zipWith f (map (fun _ => a) v) v = map (f a) v.
Proof. induction v; simpl; congruence. Qed.

(** Row-major indexing of a flattened two-dimensional array whose rows
    all come from the same second axis. *)
Lemma concat_rows_length {A B C} (f : A -> B -> C) x y :
  length (concat (map (fun a => map (f a) y) x)) = (length x * length y)%nat.
Proof.
  induction x as [|a x IH]; simpl; auto.
  now rewrite length_app, length_map, IH.
Qed.

Lemma concat_rows_nth {A B C} (f : A -> B -> C) x y i j da db dc :
  (i < length x)%nat -> (j < length y)%nat ->
  nth (i * length y + j) (concat (map (fun a => map (f a) y) x)) dc
  = f (nth i x da) (nth j y db).
Proof.
  revert i; induction x as [|a x IH]; intros i Hi Hj; simpl in *; [lia|].
  destruct i as [|i].
  - simpl. rewrite app_nth1 by now rewrite length_map.
    rewrite (nth_indep _ dc (f a db)) by now rewrite length_map.
    now rewrite map_nth.
  - rewrite app_nth2 by (rewrite length_map; simpl; lia).
    rewrite length_map.
    replace (S i * length y + j - length y)%nat
      with (i * length y + j)%nat by (simpl; lia).
    apply IH; lia.
Qed.

Lemma stack_meshgrid x y :
  stack_dim1 (concat (fst (meshgrid_ij x y))) (concat (snd (meshgrid_ij x y)))
  = concat (map (fun xi => map (pair xi) y) x).
Proof.
  unfold stack_dim1, meshgrid_ij; simpl.
  induction x as [|a x IH]; simpl; auto.
  rewrite zipWith_app by now rewrite length_map.
  now rewrite IH, zipWith_map_l.
Qed.

Lemma image_coordinates_rows r c :
  image_coordinates (r, c)
  = concat (map (fun xi => map (pair xi) (linspace (-1) 1 c))
                (linspace (-1) 1 r)).
Proof. unfold image_coordinates. apply stack_meshgrid. Qed.

Lemma image_coordinates_length r c :
  length (image_coordinates (r, c)) = (r * c)%nat.
Proof.
  now rewrite image_coordinates_rows, concat_rows_length, !linspace_length.
Qed.

Lemma image_coordinates_nth r c i j d :
  (i < r)%nat -> (j < c)%nat ->
  nth (i * c + j) (image_coordinates (r, c)) d
  = (nth i (linspace (-1) 1 r) 0, nth j (linspace (-1) 1 c) 0).
Proof.
  intros Hi Hj. rewrite image_coordinates_rows.
  rewrite <- (linspace_length (-1) 1 c) at 1.
  apply concat_rows_nth; now rewrite linspace_length.
Qed.

(** Every index of the flat grid is a (row, column) pair. *)
Lemma image_coordinates_index r c k d :
  (k < r * c)%nat ->
  nth k (image_coordinates (r, c)) d
  = (nth (k / c) (linspace (-1) 1 r) 0, nth (k mod c) (linspace (-1) 1 c) 0).
Proof.
  intros Hk.
  assert (Hc : c <> 0%nat) by (intros ->; lia).
  rewrite (Nat.div_mod k c Hc) at 1.
  rewrite (Nat.mul_comm c). apply image_coordinates_nth.
  - apply Nat.Div0.div_lt_upper_bound. lia.
  - now apply Nat.mod_upper_bound.
Qed.

Lemma last_as_nth {A} (l : list A) d : last l d = nth (length l - 1) l d.
Proof.
  induction l as [|a [|b l] IH]; auto.
  change (last (a :: b :: l) d) with (last (b :: l) d). rewrite IH.
  simpl. now rewrite Nat.sub_0_r.
Qed.

Lemma hd_as_nth {A} (l : list A) d : hd d l = nth 0 l d.
Proof. destruct l; reflexivity. Qed.

(** ** The coordinate grid *)

Lemma image_coordinates_bounds r c p :
  In p (image_coordinates (r, c)) ->
  (-1 <= fst p <= 1) /\ (-1 <= snd p <= 1).
Proof.
  intros Hin. apply (In_nth _ _ (0, 0)) in Hin.
  destruct Hin as (k & Hk & <-).
  rewrite image_coordinates_length in Hk.
  rewrite image_coordinates_index by assumption. simpl.
  assert (Hc : c <> 0%nat) by (intros ->; lia).
  split; apply linspace_bounds; try lra.
  - apply Nat.Div0.div_lt_upper_bound. lia.
  - now apply Nat.mod_upper_bound.
Qed.

Lemma image_coordinates_last r c :
  (1 <= r)%nat -> (1 <= c)%nat ->
  last (image_coordinates (r, c)) (0, 0)
  = (nth (r - 1) (linspace (-1) 1 r) 0, nth (c - 1) (linspace (-1) 1 c) 0).
Proof.
  intros Hr Hc. rewrite last_as_nth, image_coordinates_length.
  replace (r * c - 1)%nat with ((r - 1) * c + (c - 1))%nat by nia.
  apply image_coordinates_nth; lia.
Qed.

(** C5, as the code has it.  For [r >= 1] and [c >= 1] the grid has
    exactly [r * c] points, every component of every point lies in
    [[-1, 1]], the order is row-major (the first axis varies slowest),
    and the first point is [(-1, -1)].  The last point is [(1, 1)] when
    both [r >= 2] and [c >= 2]: an axis of a single step holds only
    the value [-1]. *)
Theorem image_coordinates_grid (r c : nat) :
  (1 <= r)%nat -> (1 <= c)%nat ->
  let g := image_coordinates (r, c) in
  length g = (r * c)%nat /\
  (forall p, In p g -> (-1 <= fst p <= 1) /\ (-1 <= snd p <= 1)) /\
  (forall i j, (i < r)%nat -> (j < c)%nat ->
     nth (i * c + j) g (0, 0)
     = (nth i (linspace (-1) 1 r) 0, nth j (linspace (-1) 1 c) 0)) /\
  nth 0 g (0, 0) = (-1, -1) /\
  ((2 <= r)%nat -> (2 <= c)%nat -> last g (0, 0) = (1, 1)).
Proof.
  intros Hr Hc g. subst g. repeat split.
  - apply image_coordinates_length.
  - now apply image_coordinates_bounds in H.
  - now apply image_coordinates_bounds in H.
  - now apply image_coordinates_bounds in H.
  - now apply image_coordinates_bounds in H.
  - intros i j Hi Hj. now apply image_coordinates_nth.
  - change 0%nat with (0 * c + 0)%nat at 1.
    rewrite image_coordinates_nth by lia.
    now rewrite !linspace_first by lia.
  - intros Hr2 Hc2. rewrite image_coordinates_last by lia.
    now rewrite !linspace_last by lia.
Qed.

Lemma image_coordinates_grid_witness :
  let g := image_coordinates (2%nat, 3%nat) in
  length g = 6%nat /\ nth 0 g (0, 0) = (-1, -1) /\ last g (0, 0) = (1, 1).
Proof.
  destruct (image_coordinates_grid 2 3) as (Hl & _ & _ & Hf & Hlast);
    try lia.
  intros g. split; [exact Hl | split; [exact Hf | apply Hlast; lia]].
Defined.

(** C5 as worded fails on a one-pixel image: the only point of the
    grid is [(-1, -1)], so the last point is not [(1, 1)]. *)
Lemma grid_as_specified_fails_1x1 : ~ grid_as_specified 1 1.
Proof.
  unfold grid_as_specified. intros (_ & _ & _ & _ & Hlast).
  rewrite image_coordinates_rows, !linspace_one in Hlast.
  simpl in Hlast. injection Hlast as H1 H2. lra.
Qed.

(** ** The forward projector of an image *)

Lemma zipWith_map_map {A B C D} (f : B -> C -> D) (g : A -> B) (h : A -> C) l :
  zipWith f (map g l) (map h l) = map (fun a => f (g a) (h a)) l.
Proof. induction l; simpl; congruence. Qed.

Lemma nth_map_in {A B} (f : A -> B) l i d d' :
  (i < length l)%nat -> nth i (map f l) d = f (nth i l d').
Proof.
  intros Hi. rewrite (nth_indep _ d (f d')) by now rewrite length_map.
  apply map_nth.
Qed.

Lemma tabulate_as_map {A B} (f : A -> B) l d :
  tabulate (length l) (fun i => f (nth i l d)) = map f l.
Proof.
  unfold tabulate. rewrite <- (map_map (fun i => nth i l d) f).
  f_equal. induction l as [|a l IH]; auto.
  simpl. f_equal. rewrite <- seq_shift, map_map. exact IH.
Qed.

(** The rotated grid, entry by entry: position [bi] on the first axis,
    [sj] on the second, angle [theta] on the third. *)
Lemma rotated_grid_map b s thetas :
  rotated_grid b s thetas
  = (map (fun bi => map (fun sj =>
            map (fun theta => sj * cos theta - bi * sin theta) thetas) s) b,
     map (fun bi => map (fun sj =>
            map (fun theta => sj * sin theta + bi * cos theta) thetas) s) b).
Proof.
  unfold rotated_grid, meshgrid_ij, zipWith3, outer_mul.
  rewrite !map_map. f_equal.
  - rewrite zipWith_map_map. apply map_ext. intros bi.
    rewrite !map_map, zipWith_map_map. apply map_ext. intros sj.
    now rewrite !map_map, zipWith_map_map.
  - rewrite zipWith_map_map. apply map_ext. intros bi.
    rewrite !map_map, zipWith_map_map. apply map_ext. intros sj.
    now rewrite !map_map, zipWith_map_map.
Qed.

Lemma sample_values_map image b s thetas :
  sample_values image b s thetas
  = map (fun bi => map (fun sj => map (fun theta =>
           interp_image image (specified_point theta bi sj)) thetas) s) b.
Proof.
  unfold sample_values. rewrite rotated_grid_map. unfold zipWith3.
  rewrite zipWith_map_map. apply map_ext. intros bi.
  rewrite zipWith_map_map. apply map_ext. intros sj.
  now rewrite zipWith_map_map.
Qed.

Lemma hd_map {A B} (f : A -> B) l d d' :
  l <> [] -> hd d (map f l) = f (hd d' l).
Proof. destruct l; [congruence | reflexivity]. Qed.

Lemma mean_axis0_map {A B} (F : R -> A -> B -> R) (b : list R) s thetas :
  b <> [] -> s <> [] ->
  mean_axis0 (map (fun bi => map (fun sj => map (F bi sj) thetas) s) b)
  = map (fun sj => map (fun theta => mean (map (fun bi => F bi sj theta) b))
                       thetas) s.
Proof.
  intros Hb Hs. unfold mean_axis0.
  destruct s as [|s0 s'] eqn:Es; [congruence|]. rewrite <- Es in *.
  rewrite (hd_map _ b [] 0 Hb), (hd_map _ s [] s0 Hs), !length_map.
  rewrite <- (tabulate_as_map
                (fun sj => map (fun theta =>
                   mean (map (fun bi => F bi sj theta) b)) thetas) s s0).
  apply tabulate_ext. intros j Hj.
  destruct thetas as [|t0 t'] eqn:Et; [reflexivity|]. rewrite <- Et in *.
  rewrite <- (tabulate_as_map
                (fun theta => mean (map (fun bi => F bi (nth j s s0) theta) b))
                thetas t0).
  apply tabulate_ext. intros t Ht.
  f_equal. rewrite map_map. apply map_ext. intros bi.
  rewrite (nth_map_in _ s j [] s0) by assumption.
  now rewrite (nth_map_in _ thetas t 0 t0) by assumption.
Qed.

Lemma transpose_map {A B} (G : A -> B -> R) s thetas :
  s <> [] ->
  transpose (map (fun sj => map (G sj) thetas) s)
  = map (fun theta => map (fun sj => G sj theta) s) thetas.
Proof.
  intros Hs. unfold transpose, shape2.
  destruct s as [|s0 s'] eqn:Es; [congruence|]. rewrite <- Es in *.
  rewrite (hd_map _ s [] s0 Hs), !length_map.
  destruct thetas as [|t0 t'] eqn:Et; [reflexivity|]. rewrite <- Et in *.
  rewrite <- (tabulate_as_map (fun theta => map (fun sj => G sj theta) s)
                              thetas t0).
  apply tabulate_ext. intros t Ht.
  rewrite <- (tabulate_as_map (fun sj => G sj (nth t thetas t0)) s s0).
  apply tabulate_ext. intros j Hj.
  rewrite (nth_map_in _ s j [] s0) by assumption.
  now rewrite (nth_map_in _ thetas t 0 t0) by assumption.
Qed.

(** One row of the sinogram: an entry per position [sj] of the [s]
    axis, the mean over the [b] axis of the image at the rotated
    points. *)
Lemma project_image_rows image thetas (nr_B nr_S : Z) (nr_S' : option Z) :
  (1 <= nr_B)%Z -> py_or nr_S' nr_B = nr_S -> (1 <= nr_S)%Z ->
  project_image image thetas nr_B nr_S'
  = Ok (map (fun theta =>
          map (fun sj =>
            mean (map (fun bi =>
                    interp_image image (specified_point theta bi sj))
                  (linspace (-1) 1 (Z.to_nat nr_B))))
          (linspace (-1) 1 (Z.to_nat nr_S))) thetas).
Proof.
  intros HB E HS. unfold project_image, np_linspace. rewrite E.
  destruct (Z.ltb_spec nr_B 0); [lia|].
  destruct (Z.ltb_spec nr_S 0); [lia|].
  f_equal. rewrite sample_values_map.
  assert (Hne : forall n, (1 <= n)%Z -> linspace (-1) 1 (Z.to_nat n) <> []).
  { intros n Hn En. apply (f_equal (@length R)) in En.
    rewrite linspace_length in En. simpl in En. lia. }
  rewrite (mean_axis0_map
             (fun bi sj theta =>
                interp_image image (specified_point theta bi sj)))
    by auto.
  now rewrite (transpose_map
             (fun sj theta => mean (map (fun bi =>
                interp_image image (specified_point theta bi sj)) _)))
    by auto.
Qed.

Lemma project_image_shape image thetas (nr_B nr_S : Z) (nr_S' : option Z) :
  (1 <= nr_B)%Z -> py_or nr_S' nr_B = nr_S -> (1 <= nr_S)%Z ->
  exists p, project_image image thetas nr_B nr_S' = Ok p /\
            length p = length thetas /\
            Forall (fun row => length row = Z.to_nat nr_S) p.
Proof.
  intros HB E HS. eexists.
  split; [now apply (project_image_rows _ _ nr_B nr_S)|].
  rewrite length_map. split; [reflexivity|].
  apply Forall_map, Forall_forall. intros theta _.
  now rewrite length_map, linspace_length.
Qed.

(** ** Mirror symmetry of the projector *)

Lemma linspace_rev n :
  (2 <= n)%nat -> rev (linspace (-1) 1 n) = map Ropp (linspace (-1) 1 n).
Proof.
  intros Hn. unfold linspace. rewrite tabulate_rev.
  unfold tabulate. rewrite map_map. apply map_ext_in.
  intros i Hi. apply in_seq in Hi.
  assert (Hpos : 0 < INR (n - 1)) by (apply lt_0_INR; lia).
  rewrite minus_INR by lia. field. lra.
Qed.

Lemma specified_point_PI theta b s :
  specified_point (theta + PI) b s = specified_point theta (- b) (- s).
Proof.
  unfold specified_point. rewrite neg_cos, neg_sin. f_equal; ring.
Qed.

Lemma mean_map_opp (f : R -> R) n :
  (2 <= n)%nat ->
  mean (map (fun x => f (- x)) (linspace (-1) 1 n))
  = mean (map f (linspace (-1) 1 n)).
Proof.
  intros Hn. rewrite <- (map_map Ropp f), <- linspace_rev by assumption.
  now rewrite map_rev, mean_rev.
Qed.

(** With the exact value of [PI] and exact sines and cosines - which
    the floating-point code never has - and at least two detector bins
    and two samples per ray, the sinogram row at [theta + PI] would be
    the row at [theta] in reverse order. *)
Lemma project_image_mirror (image : Tensor2) (theta : R)
    (nr_B : Z) (nr_S : option Z) :
  (2 <= nr_B)%Z -> (2 <= py_or nr_S nr_B)%Z ->
  mirrored_rows image theta nr_B nr_S.
Proof.
  intros HB HS. unfold mirrored_rows.
  rewrite !(project_image_rows image _ nr_B (py_or nr_S nr_B)) by lia.
  eexists. split; [reflexivity|]. cbn [map]. do 2 f_equal.
  rewrite <- map_rev, linspace_rev, map_map by lia.
  apply map_ext. intros sj.
  erewrite map_ext by (intros bi; now rewrite specified_point_PI).
  apply (mean_map_opp
           (fun bi => interp_image image (specified_point theta bi (- sj)))).
  lia.
Qed.

(** ** The interpolated image *)

Lemma linspace_two a b : linspace a b 2 = [a; b].
Proof. unfold linspace, tabulate. simpl. f_equal; [|f_equal]; lra. Qed.

Lemma linspace_three : linspace (-1) 1 3 = [-1; 0; 1].
Proof.
  unfold linspace, tabulate. simpl. f_equal; [|f_equal; [|f_equal]]; lra.
Qed.

Lemma Rltb_true a b : a < b -> Rltb a b = true.
Proof. intros H. unfold Rltb. destruct (Rlt_dec a b); [reflexivity|lra]. Qed.

Lemma Rltb_false a b : b <= a -> Rltb a b = false.
Proof. intros H. unfold Rltb. destruct (Rlt_dec a b); [lra|reflexivity]. Qed.

(** On a two-by-two image the interpolator is the bilinear blend of the
    four pixels. *)
Lemma interp_image_2x2 a b c d x y :
  -1 <= x <= 1 -> -1 <= y <= 1 ->
  interp_image [[a; b]; [c; d]] (x, y)
  = (1 - (x + 1) / 2) * (1 - (y + 1) / 2) * a
    + (1 - (x + 1) / 2) * ((y + 1) / 2) * b
    + (x + 1) / 2 * (1 - (y + 1) / 2) * c
    + (x + 1) / 2 * ((y + 1) / 2) * d.
Proof.
  intros Hx Hy. unfold interp_image, shape2. cbn [length hd].
  rewrite linspace_two. unfold RegularGridInterpolator, find_index.
  cbn [length Nat.sub]. rewrite !Nat.min_0_r.
  unfold out_of_bounds. cbn [hd last nth].
  rewrite !Rltb_false by lra. cbn [orb]. field.
Qed.

(** Outside the square the interpolator returns the fill value. *)
Lemma interp_image_outside image x y :
  (2 <= length image)%nat -> (2 <= length (hd [] image))%nat ->
  outside_square x y -> interp_image image (x, y) = 0.
Proof.
  intros Hr Hc Hout. unfold interp_image, shape2.
  unfold RegularGridInterpolator.
  destruct (find_index _ x) as [i tx]. destruct (find_index _ y) as [j ty].
  assert (Hb : forall n v, (2 <= n)%nat -> v < -1 \/ 1 < v ->
                 out_of_bounds (linspace (-1) 1 n) v = true).
  { intros n v Hn Hv. unfold out_of_bounds.
    rewrite hd_as_nth, linspace_first by lia.
    rewrite last_as_nth, linspace_length, linspace_last by lia.
    destruct Hv; [rewrite Rltb_true by lra; reflexivity|].
    rewrite (Rltb_true 1 v) by lra. apply orb_true_r. }
  destruct Hout as [H|[H|[H|H]]].
  - rewrite (Hb _ x) by auto. reflexivity.
  - rewrite (Hb _ x) by auto. reflexivity.
  - rewrite (Hb _ y) by auto. now rewrite orb_true_r.
  - rewrite (Hb _ y) by auto. now rewrite orb_true_r.
Qed.

(** Any angle that is not a multiple of a quarter turn - the float
    [np.pi] is one, it falls short of [PI] - turns the four corners of
    the two-by-two sampling grid out of the square: with two bins and
    two samples the whole sinogram row is the fill value. *)
Lemma corner_outside t b s :
  b = 1 \/ b = -1 -> s = 1 \/ s = -1 -> sin t <> 0 -> cos t <> 0 ->
  outside_square (s * cos t - b * sin t) (s * sin t + b * cos t).
Proof.
  intros Hb Hs Hsin Hcos. pose proof (sin2_cos2 t) as H1. unfold Rsqr in H1.
  unfold outside_square.
  destruct (Rlt_dec (s * cos t - b * sin t) (-1)) as [?|Hx1]; [tauto|].
  destruct (Rlt_dec 1 (s * cos t - b * sin t)) as [?|Hx2]; [tauto|].
  destruct (Rlt_dec (s * sin t + b * cos t) (-1)) as [?|Hy1]; [tauto|].
  destruct (Rlt_dec 1 (s * sin t + b * cos t)) as [?|Hy2]; [tauto|].
  exfalso.
  assert (Hz : sin t * cos t = 0).
  { destruct Hb as [-> | ->]; destruct Hs as [-> | ->]; nra. }
  apply Rmult_integral in Hz. tauto.
Qed.

Lemma project_image_two_bins_off_axis (image : Tensor2) (t : R) :
  (2 <= length image)%nat -> (2 <= length (hd [] image))%nat ->
  sin t <> 0 -> cos t <> 0 ->
  project_image image [t] 2 None = Ok [[0; 0]].
Proof.
  intros Hr Hc Hsin Hcos.
  rewrite (project_image_rows _ _ 2 2) by (simpl; lia).
  change (Z.to_nat 2) with 2%nat. rewrite linspace_two. cbn [map].
  unfold specified_point.
  rewrite !interp_image_outside by (auto using corner_outside).
  unfold mean. simpl. do 3 f_equal; [|f_equal]; field.
Qed.

(** C1 at a concrete input.  With two detector bins and three samples
    per ray the projector returns, for the image [[1, 2], [3, 4]] at
    angle 0, one row of THREE entries, each the mean of TWO image
    values: the mean runs over the bin axis and the row is indexed by
    the sample axis.  The documented result is a row of two entries
    (one per bin), each the mean of three samples: [2, 3]. *)
Theorem project_image_bins_samples_swapped :
  project_image image_1234 [0] 2 (Some 3%Z) = Ok [[3 / 2; 5 / 2; 7 / 2]] /\
  project_as_specified image_1234 [0] 2 3 = [[2; 3]].
Proof.
  split.
  - rewrite (project_image_rows _ _ 2 3) by (simpl; lia).
    change (Z.to_nat 2) with 2%nat. change (Z.to_nat 3) with 3%nat.
    rewrite linspace_two, linspace_three. cbn [map].
    unfold specified_point. rewrite cos_0, sin_0. unfold image_1234.
    rewrite !interp_image_2x2 by lra.
    unfold mean. simpl. do 2 f_equal.
    repeat (apply f_equal2; [field|]). reflexivity.
  - unfold project_as_specified.
    rewrite linspace_two, linspace_three. cbn [map].
    unfold specified_point. rewrite cos_0, sin_0. unfold image_1234.
    rewrite !interp_image_2x2 by lra.
    unfold mean. simpl. f_equal.
    repeat (apply f_equal2; [field|]). reflexivity.
Qed.

(** ** The sample points of the model projector *)

Lemma zipWith_map_r {A B C} (f : A -> B -> C) (c : B) u :
  zipWith f u (map (fun _ => c) u) = map (fun a => f a c) u.
Proof. induction u; simpl; congruence. Qed.

Lemma model_points_rows theta nr_B nr_S :
  model_points theta nr_B nr_S
  = concat (map (fun si => map (fun bj =>
        [bj * sin theta + (si * cos theta + 0);
         bj * cos theta + (si * - sin theta + 0)])
      (linspace (-1) 1 nr_B)) (linspace (-1) 1 nr_S)).
Proof.
  unfold model_points, meshgrid_xy, stack_flat, apply_rot.
  rewrite zipWith_map_map, concat_map, map_map. f_equal.
  apply map_ext. intros si. now rewrite zipWith_map_r, map_map.
Qed.

Lemma model_points_length theta nr_B nr_S :
  length (model_points theta nr_B nr_S) = (nr_S * nr_B)%nat.
Proof.
  now rewrite model_points_rows, concat_rows_length, !linspace_length.
Qed.

Lemma model_points_nth theta nr_B nr_S i j :
  (i < nr_S)%nat -> (j < nr_B)%nat ->
  nth (i * nr_B + j) (model_points theta nr_B nr_S) []
  = [nth i (linspace (-1) 1 nr_S) 0 * cos theta
     + nth j (linspace (-1) 1 nr_B) 0 * sin theta;
     nth j (linspace (-1) 1 nr_B) 0 * cos theta
     - nth i (linspace (-1) 1 nr_S) 0 * sin theta].
Proof.
  intros Hi Hj. rewrite model_points_rows.
  rewrite <- (linspace_length (-1) 1 nr_B) at 1.
  rewrite (concat_rows_nth
             (fun si bj => [bj * sin theta + (si * cos theta + 0);
                            bj * cos theta + (si * - sin theta + 0)])
             _ _ i j 0 0) by now rewrite linspace_length.
  f_equal; [|f_equal]; ring.
Qed.

Lemma rotated_grid_nth b s thetas i j t :
  (i < length b)%nat -> (j < length s)%nat -> (t < length thetas)%nat ->
  let '(X, Y) := rotated_grid b s thetas in
  (nth t (nth j (nth i X []) []) 0, nth t (nth j (nth i Y []) []) 0)
  = specified_point (nth t thetas 0) (nth i b 0) (nth j s 0).
Proof.
  intros Hi Hj Ht. rewrite rotated_grid_map. unfold specified_point.
  rewrite !(nth_map_in _ b i [] 0) by assumption.
  rewrite !(nth_map_in _ s j [] 0) by assumption.
  now rewrite !(nth_map_in _ thetas t 0 0) by assumption.
Qed.

(** The two rotations in general.  The image projector evaluates the
    image at [x = s cos(theta) - b sin(theta)], [y = s sin(theta) + b
    cos(theta)].  The model projector evaluates the model at
    [x = s cos(theta) + b sin(theta)], [y = b cos(theta) - s
    sin(theta)]: the same formula at the angle [- theta]. *)
Lemma rotation_conventions (thetas : list R) (theta : R)
    (nr_B nr_S i j t : nat) :
  (i < nr_B)%nat -> (j < nr_S)%nat -> (t < length thetas)%nat ->
  let b := linspace (-1) 1 nr_B in
  let s := linspace (-1) 1 nr_S in
  (let '(X, Y) := rotated_grid b s thetas in
   (nth t (nth j (nth i X []) []) 0, nth t (nth j (nth i Y []) []) 0)
   = specified_point (nth t thetas 0) (nth i b 0) (nth j s 0)) /\
  (let p := specified_point (- theta) (nth i b 0) (nth j s 0) in
   nth (j * nr_B + i) (model_points theta nr_B nr_S) [] = [fst p; snd p]).
Proof.
  intros Hi Hj Ht b s. split.
  - apply rotated_grid_nth; unfold b, s; now rewrite ?linspace_length.
  - rewrite model_points_nth by assumption.
    unfold specified_point. cbn [fst snd]. rewrite cos_neg, sin_neg.
    fold b s. f_equal; [|f_equal]; ring.
Qed.

Lemma rotation_conventions_witness :
  nth (1 * 2 + 1) (model_points (PI / 2) 2 2) []
  = [fst (specified_point (- (PI / 2)) (nth 1 (linspace (-1) 1 2) 0)
                          (nth 1 (linspace (-1) 1 2) 0));
     snd (specified_point (- (PI / 2)) (nth 1 (linspace (-1) 1 2) 0)
                          (nth 1 (linspace (-1) 1 2) 0))].
Proof.
  apply (rotation_conventions [0] (PI / 2) 2 2 1 1 0); simpl; lia.
Defined.

(** The model projector does not sample the specified points. *)
Lemma model_samples_specified_points_fails :
  ~ model_samples_specified_points (PI / 2) 2 2.
Proof.
  unfold model_samples_specified_points. intros H.
  specialize (H 1%nat 1%nat ltac:(lia) ltac:(lia)).
  rewrite model_points_nth in H by lia.
  rewrite linspace_two in H. cbn [nth] in H. unfold specified_point in H.
  cbn [fst snd] in H. rewrite cos_PI2, sin_PI2 in H.
  injection H as H1 H2. lra.
Qed.

(** The two projectors sample the same point exactly where the sine
    of the angle cancels both coordinates. *)
Lemma projectors_agree_iff theta b s :
  specified_point (- theta) b s = specified_point theta b s
  <-> b * sin theta = 0 /\ s * sin theta = 0.
Proof.
  unfold specified_point. rewrite cos_neg, sin_neg. split.
  - intros H. injection H as H1 H2. split; lra.
  - intros [H1 H2]. f_equal; lra.
Qed.

(** C2 at a concrete input.  At a quarter turn, for the grid position
    [b = 1], [s = 1] of a two-by-two grid, [project_model] hands the
    model the point [(1, -1)], while [project_image] - whose sinogram
    rows the model's projections are fitted to - evaluates the image
    at [(-1, 1)], the point the rotation convention names. *)
Theorem project_model_rotation_mismatch :
  nth (1 * 2 + 1) (model_points (PI / 2) 2 2) [] = [1; -1] /\
  (let '(X, Y) := rotated_grid (linspace (-1) 1 2) (linspace (-1) 1 2)
                               [PI / 2] in
   (nth 0 (nth 1 (nth 1 X []) []) 0, nth 0 (nth 1 (nth 1 Y []) []) 0))
  = (-1, 1) /\
  specified_point (PI / 2) 1 1 = (-1, 1).
Proof.
  split; [|split].
  - rewrite model_points_nth by lia. rewrite linspace_two. cbn [nth].
    rewrite cos_PI2, sin_PI2. f_equal; [|f_equal]; ring.
  - pose proof (rotated_grid_nth (linspace (-1) 1 2) (linspace (-1) 1 2)
                  [PI / 2] 1 1 0) as H.
    rewrite linspace_length in H. specialize (H ltac:(lia) ltac:(lia)
                                                ltac:(simpl; lia)).
    destruct (rotated_grid _ _ _) as [X Y]. rewrite H.
    rewrite linspace_two. cbn [nth]. unfold specified_point.
    rewrite cos_PI2, sin_PI2. f_equal; ring.
  - unfold specified_point. rewrite cos_PI2, sin_PI2. f_equal; ring.
Qed.

(** ** Samples outside the square *)

Lemma sin_cos_PI4_gt_half : 1 / 2 < sin (PI / 4) /\ cos (PI / 4) = sin (PI / 4).
Proof.
  rewrite sin_PI4, cos_PI4. split; [|reflexivity].
  assert (H0 : 0 < sqrt 2) by (apply sqrt_lt_R0; lra).
  assert (H2 : sqrt 2 < 2).
  { rewrite <- (sqrt_square 2) at 2 by lra. apply sqrt_lt_1; lra. }
  unfold Rdiv. rewrite !Rmult_1_l. apply Rinv_lt_contravar; nra.
Qed.

Lemma sample_values_nth image b s thetas i j t :
  (i < length b)%nat -> (j < length s)%nat -> (t < length thetas)%nat ->
  nth t (nth j (nth i (sample_values image b s thetas) []) []) 0
  = interp_image image
      (specified_point (nth t thetas 0) (nth i b 0) (nth j s 0)).
Proof.
  intros Hi Hj Ht. rewrite sample_values_map.
  rewrite (nth_map_in _ b i [] 0) by assumption.
  rewrite (nth_map_in _ s j [] 0) by assumption.
  now rewrite (nth_map_in _ thetas t 0 0) by assumption.
Qed.

Lemma concat_pointwise f pts : concat (pointwise f pts) = map f pts.
Proof. unfold pointwise. induction pts; simpl; congruence. Qed.

Lemma project_model_pointwise posenc f theta nr_B nr_S L_embed :
  length (posenc L_embed (model_points theta nr_B nr_S))
  = (nr_S * nr_B)%nat ->
  project_model posenc (pointwise f) theta nr_B nr_S L_embed
  = tabulate nr_B (fun k =>
      1 / INR nr_S
      * Rsum (tabulate nr_S (fun l =>
          f (nth (k * nr_S + l)
                 (posenc L_embed (model_points theta nr_B nr_S)) [])))).
Proof.
  intros Hlen. unfold project_model, reshape2.
  rewrite concat_pointwise. unfold tabulate at 1. rewrite map_map.
  apply map_ext_in. intros k Hk. apply in_seq in Hk.
  do 2 f_equal. apply tabulate_ext. intros l Hl.
  apply nth_map_in. rewrite Hlen. nia.
Qed.

(** C4, as the code has it.  In the projection of an image every
    sample whose rotated point lies outside [[-1, 1] x [-1, 1]] has the
    value 0 (the interpolator's fill value; no wraparound, no clamping
    to the edge).  The projector of a model has no such fill: every
    sample contributes the value the model takes at its point. *)
Theorem zero_fill_image_only (image : Tensor2) (thetas : list R)
    (nr_B nr_S i j t : nat)
    (posenc : Z -> Tensor2 -> Tensor2) (f : list R -> R) (theta : R)
    (L_embed : Z) :
  (2 <= length image)%nat -> (2 <= length (hd [] image))%nat ->
  (i < nr_B)%nat -> (j < nr_S)%nat -> (t < length thetas)%nat ->
  let b := linspace (-1) 1 nr_B in
  let s := linspace (-1) 1 nr_S in
  let p := specified_point (nth t thetas 0) (nth i b 0) (nth j s 0) in
  outside_square (fst p) (snd p) ->
  length (posenc L_embed (model_points theta nr_B nr_S))
  = (nr_S * nr_B)%nat ->
  nth t (nth j (nth i (sample_values image b s thetas) []) []) 0 = 0 /\
  project_model posenc (pointwise f) theta nr_B nr_S L_embed
  = tabulate nr_B (fun k =>
      1 / INR nr_S
      * Rsum (tabulate nr_S (fun l =>
          f (nth (k * nr_S + l)
                 (posenc L_embed (model_points theta nr_B nr_S)) [])))).
Proof.
  intros Hr Hc Hi Hj Ht b s p Hout Hlen. split.
  - rewrite sample_values_nth
      by (unfold b, s; now rewrite ?linspace_length).
    fold p. destruct p as [x y]. now apply interp_image_outside.
  - now apply project_model_pointwise.
Qed.

Lemma zero_fill_image_only_witness :
  nth 0 (nth 1 (nth 1 (sample_values image_1234 (linspace (-1) 1 2)
                         (linspace (-1) 1 2) [PI / 4]) []) []) 0 = 0 /\
  project_model no_encoding (pointwise (fun _ => 1)) (PI / 4) 2 2 6
  = tabulate 2 (fun k =>
      1 / INR 2
      * Rsum (tabulate 2 (fun l =>
          (fun _ : list R => 1)
            (nth (k * 2 + l)
                 (no_encoding 6 (model_points (PI / 4) 2 2)) [])))).
Proof.
  apply (zero_fill_image_only image_1234 [PI / 4] 2 2 1 1 0
           no_encoding (fun _ => 1) (PI / 4) 6); try (simpl; lia).
  - rewrite linspace_two. cbn [nth]. unfold specified_point. cbn [fst snd].
    destruct sin_cos_PI4_gt_half as [H1 H2]. rewrite H2.
    right; right; right. lra.
Defined.

Lemma one_everywhere_forward pts :
  Siren_forward one_everywhere pts = map (fun _ => [1]) pts.
Proof.
  unfold Siren_forward, one_everywhere. cbn [fold_left Layer_forward].
  unfold SineLayer_forward, Linear_forward. cbn [weight bias linear omega].
  rewrite !map_map. apply map_ext. intros x.
  cbn [map zipWith]. unfold dot at 1. cbn [zipWith Rsum fold_right].
  f_equal. ring.
Qed.

(** C4 as worded fails for a network field: the network that is 1
    everywhere, projected at an eighth of a turn on a two-by-two grid,
    is evaluated at the point [(sqrt 2, 0)] outside the square and
    contributes 1 there, not 0. *)
Lemma model_zero_outside_fails :
  ~ model_zero_outside no_encoding (Siren_forward one_everywhere)
      (PI / 4) 2 2 6.
Proof.
  unfold model_zero_outside. intros H.
  pose proof (model_points_nth (PI / 4) 2 2 1 1 ltac:(lia) ltac:(lia)) as Hp.
  rewrite linspace_two in Hp. cbn [nth] in Hp.
  assert (Hlen := model_points_length (PI / 4) 2 2).
  assert (Hne : nth_error (model_points (PI / 4) 2 2) 3
                = Some [1 * cos (PI / 4) + 1 * sin (PI / 4);
                        1 * cos (PI / 4) - 1 * sin (PI / 4)]).
  { rewrite (nth_error_nth' _ []) by (rewrite Hlen; simpl; lia).
    f_equal. exact Hp. }
  destruct sin_cos_PI4_gt_half as [H1 H2].
  assert (Hout : outside_square (1 * cos (PI / 4) + 1 * sin (PI / 4))
                                (1 * cos (PI / 4) - 1 * sin (PI / 4))).
  { unfold outside_square. rewrite H2. right; left. lra. }
  specialize (H 3%nat _ _ Hne Hout). unfold no_encoding in H.
  rewrite one_everywhere_forward in H.
  rewrite (nth_map_in _ _ 3 [] []) in H by (rewrite Hlen; simpl; lia).
  injection H as H. lra.
Qed.

(** ** Computations that draw and may raise *)

Lemma sw_ret {A} (P : A -> Prop) a : P a -> succeeds_with P (ret a).
Proof. intros HP g Hg. exists a, g. auto. Qed.

Lemma sw_bind {A B} (P : A -> Prop) (Q : B -> Prop) m k :
  succeeds_with P m -> (forall a, P a -> succeeds_with Q (k a)) ->
  succeeds_with Q (bind m k).
Proof.
  intros Hm Hk g Hg. destruct (Hm g Hg) as (a & g1 & E1 & Hg1 & Pa).
  destruct (Hk a Pa g1 Hg1) as (b & g2 & E2 & Hg2 & Qb).
  exists b, g2. unfold bind. rewrite E1. auto.
Qed.

Lemma sw_weaken {A} (P Q : A -> Prop) m :
  succeeds_with P m -> (forall a, P a -> Q a) -> succeeds_with Q m.
Proof.
  intros Hm HPQ g Hg. destruct (Hm g Hg) as (a & g1 & E1 & Hg1 & Pa).
  exists a, g1. auto.
Qed.

Lemma sw_rand : succeeds_with (fun u => 0 <= u < 1) rand.
Proof.
  intros g Hg. exists (g 0%nat), (fun n => g (S n)).
  split; [reflexivity|]. split; [intros n; apply Hg | apply Hg].
Qed.

Lemma sw_mapM {A B} (P : B -> Prop) (f : A -> M B) l :
  (forall a, In a l -> succeeds_with P (f a)) ->
  succeeds_with (fun bs => length bs = length l /\ Forall P bs) (mapM f l).
Proof.
  induction l as [|a l IH]; intros Hf.
  - apply sw_ret. auto.
  - cbn [mapM]. apply (sw_bind P); [apply Hf; now left|].
    intros b Pb.
    apply (sw_bind (fun bs => length bs = length l /\ Forall P bs)).
    + apply IH. intros a' Ha'. apply Hf. now right.
    + intros bs [Hlen HP]. apply sw_ret. simpl. auto.
Qed.

Lemma sw_accepted {A} (P : A -> Prop) m : succeeds_with P m -> accepted m.
Proof.
  intros Hm g Hg. destruct (Hm g Hg) as (a & g1 & E1 & _). eauto.
Qed.

Lemma rejected_raise {A} e : rejected (@raise A e).
Proof. intros g. now exists e. Qed.

Lemma rejected_bind_l {A B} (m : M A) (k : A -> M B) :
  rejected m -> rejected (bind m k).
Proof.
  intros Hm g. destruct (Hm g) as (e & E). exists e. unfold bind.
  now rewrite E.
Qed.

Lemma rejected_bind_r {A B} (m : M A) (k : A -> M B) :
  (forall a, rejected (k a)) -> rejected (bind m k).
Proof.
  intros Hk g. unfold bind. destruct (m g) as [[a g1]|e].
  - apply Hk.
  - now exists e.
Qed.

Lemma half_fair : fair half.
Proof. intros n. unfold half. lra. Qed.

Lemma accepted_not_rejected {A} (m : M A) : accepted m -> ~ rejected m.
Proof.
  intros Ha Hr. destruct (Ha half half_fair) as (a & g' & E).
  destruct (Hr half) as (e & E'). congruence.
Qed.

(** ** Initialisation of tensors and layers *)

Lemma sw_uniform_entry lo hi :
  lo <= hi -> succeeds_with (fun v => lo <= v <= hi) (uniform_entry lo hi).
Proof.
  intros Hle. unfold uniform_entry. apply (sw_bind _ _ _ _ sw_rand).
  intros u Hu. apply sw_ret. nra.
Qed.

Lemma sw_uniform1_ (t : Tensor1) lo hi :
  lo <= hi ->
  succeeds_with (fun b => length b = length t)
                (uniform1_ t (Some lo) (Some hi)).
Proof.
  intros Hle. unfold uniform1_. destruct (Rlt_dec hi lo); [lra|].
  eapply sw_weaken.
  - apply sw_mapM. intros _ _. now apply sw_uniform_entry.
  - intros b [Hlen _]. exact Hlen.
Qed.

Lemma sw_uniform_ (t : Tensor2) rows cols lo hi :
  lo <= hi -> has_shape rows cols t ->
  succeeds_with (fun w => has_shape rows cols w /\ entries_within lo hi w)
                (uniform_ t (Some lo) (Some hi)).
Proof.
  intros Hle [Hrows Hcols]. unfold uniform_. destruct (Rlt_dec hi lo); [lra|].
  eapply sw_weaken.
  - apply (sw_mapM (fun row => length row = cols
                               /\ Forall (fun v => lo <= v <= hi) row)).
    intros row Hin. eapply sw_weaken.
    + apply sw_mapM. intros _ _. now apply sw_uniform_entry.
    + cbn beta. intros r [Hl HF]. split; [|exact HF].
      rewrite Hl. rewrite Forall_forall in Hcols. now apply Hcols.
  - cbn beta. intros w [Hl HF]. unfold has_shape, entries_within.
    rewrite Hl, Hrows. repeat split.
    + eapply Forall_impl; [|exact HF]. now intros r [? _].
    + eapply Forall_impl; [|exact HF]. now intros r [_ ?].
Qed.

Lemma sw_torch_empty rows cols :
  (0 <= rows)%Z -> (0 <= cols)%Z ->
  succeeds_with (has_shape (Z.to_nat rows) (Z.to_nat cols))
                (torch_empty rows cols).
Proof.
  intros Hr Hc. unfold torch_empty.
  destruct (Z.ltb_spec rows 0); [lia|]. destruct (Z.ltb_spec cols 0); [lia|].
  apply sw_ret. split.
  - apply repeat_length.
  - apply Forall_forall. intros row Hin. apply repeat_spec in Hin.
    subst. apply repeat_length.
Qed.

Lemma sw_nn_Linear indim outdim with_bias :
  (0 <= indim)%Z -> (0 <= outdim)%Z ->
  succeeds_with
    (fun l => has_shape (Z.to_nat outdim) (Z.to_nat indim) (weight l))
    (nn_Linear indim outdim with_bias).
Proof.
  intros Hi Ho. unfold nn_Linear.
  apply (sw_bind _ _ _ _ (sw_torch_empty outdim indim Ho Hi)).
  intros w0 Hw0.
  assert (Hk : 0 <= (if (0 <? indim)%Z then 1 / sqrt (IZR indim) else 0)).
  { destruct (Z.ltb_spec 0 indim); [|lra].
    assert (0 < sqrt (IZR indim)) by (apply sqrt_lt_R0, IZR_lt; lia).
    apply Rlt_le, Rdiv_lt_0_compat; lra. }
  set (k := if (0 <? indim)%Z then 1 / sqrt (IZR indim) else 0) in *.
  apply (sw_bind (has_shape (Z.to_nat outdim) (Z.to_nat indim))).
  { destruct ((indim =? 0) || (outdim =? 0))%Z.
    - now apply sw_ret.
    - eapply sw_weaken.
      + apply (sw_uniform_ w0 (Z.to_nat outdim) (Z.to_nat indim) (- k) k);
          [lra | exact Hw0].
      + now intros w [? _]. }
  intros w Hw.
  apply (sw_bind (fun _ => True)).
  { destruct with_bias.
    - eapply sw_bind; [apply (sw_uniform1_ _ (- k) k); lra|].
      intros b _. now apply sw_ret.
    - now apply sw_ret. }
  intros b _. now apply sw_ret.
Qed.

Lemma sw_py_div a b :
  b <> 0%Z -> succeeds_with (fun q => q = a / IZR b) (py_div a b).
Proof.
  intros Hb. unfold py_div. destruct (Z.eqb_spec b 0); [contradiction|].
  now apply sw_ret.
Qed.

Lemma np_div_nonzero a b : b <> 0 -> np_div a b = Some (a / b).
Proof. intros Hb. unfold np_div. destruct (Req_dec_T b 0); tauto. Qed.

Lemma np_div_zero a : np_div a 0 = None.
Proof. unfold np_div. destruct (Req_dec_T 0 0); tauto. Qed.

Lemma init_bound_nonneg is_first indim omega :
  (0 < indim)%Z -> 0 < omega -> 0 <= init_bound is_first indim omega.
Proof.
  intros Hi Ho. assert (0 < IZR indim) by now apply IZR_lt.
  unfold init_bound. destruct is_first.
  - apply Rlt_le, Rdiv_lt_0_compat; lra.
  - apply Rmult_le_pos; [apply sqrt_pos | apply Rlt_le, Rinv_0_lt_compat, Ho].
Qed.

Lemma sw_SineLayer_init n_in n_out with_bias first om :
  (0 < n_in)%Z -> (0 <= n_out)%Z -> (first = false -> 0 < om) ->
  succeeds_with (SineLayer_fresh n_in n_out first om)
                (SineLayer_init n_in n_out with_bias first om).
Proof.
  intros Hi Ho Hom. assert (Hpos : 0 < IZR n_in) by now apply IZR_lt.
  unfold SineLayer_init.
  eapply sw_bind; [apply (sw_nn_Linear n_in n_out with_bias); lia|].
  cbn beta. intros linear0 Hshape.
  apply (sw_bind (fun w => has_shape (Z.to_nat n_out) (Z.to_nat n_in) w /\
                   entries_within (- init_bound first n_in om)
                                  (init_bound first n_in om) w)).
  - destruct first.
    + eapply sw_bind; [apply sw_py_div; lia|]. intros lo ->.
      eapply sw_bind; [apply sw_py_div; lia|]. intros hi ->.
      unfold init_bound.
      replace (- (1 / IZR n_in)) with (-1 / IZR n_in) by (field; lra).
      apply sw_uniform_; [|exact Hshape].
      apply Rmult_le_compat_r; [apply Rlt_le, Rinv_0_lt_compat, Hpos | lra].
    + specialize (Hom eq_refl).
      eapply sw_bind; [apply sw_py_div; lia|]. intros q1 ->.
      eapply sw_bind; [apply sw_py_div; lia|]. intros q2 ->.
      rewrite !np_div_nonzero by lra. unfold init_bound.
      replace (- (sqrt (6 / IZR n_in) / om))
        with (- sqrt (6 / IZR n_in) / om) by (field; lra).
      apply sw_uniform_; [|exact Hshape].
      apply Rmult_le_compat_r; [apply Rlt_le, Rinv_0_lt_compat, Hom|].
      pose proof (sqrt_pos (6 / IZR n_in)). lra.
  - intros w [Hw Hin]. apply sw_ret. unfold SineLayer_fresh. cbn.
    repeat split; try assumption; apply Hw.
Qed.

(** C3.  A sine layer constructed with positive [indim], non-negative
    [outdim] and positive [omega] has an [outdim] by [indim] weight
    matrix whose entries all lie within [[-1/indim, 1/indim]] when
    [is_first] is true, and within
    [[-sqrt(6/indim)/omega, sqrt(6/indim)/omega]] otherwise. *)
Theorem SineLayer_init_weight_bounds (n_in n_out : Z) (with_bias first : bool)
    (om : R) (g : Generator) :
  (0 < n_in)%Z -> (0 <= n_out)%Z -> 0 < om -> fair g ->
  exists l g',
    SineLayer_init n_in n_out with_bias first om g = Ok (l, g') /\
    has_shape (Z.to_nat n_out) (Z.to_nat n_in) (weight (linear l)) /\
    if first
    then entries_within (- (1 / IZR n_in)) (1 / IZR n_in) (weight (linear l))
    else entries_within (- (sqrt (6 / IZR n_in) / om))
                        (sqrt (6 / IZR n_in) / om) (weight (linear l)).
Proof.
  intros Hi Ho Hom Hg.
  destruct (sw_SineLayer_init n_in n_out with_bias first om Hi Ho
              (fun _ => Hom) g Hg)
    as (l & g' & E & _ & _ & _ & _ & Hshape & Hin).
  exists l, g'. split; [exact E|]. split; [exact Hshape|].
  unfold init_bound in Hin. destruct first; exact Hin.
Qed.

Lemma SineLayer_init_weight_bounds_witness :
  exists l g',
    SineLayer_init 2 3 true false 30 half = Ok (l, g') /\
    has_shape 3 2 (weight (linear l)) /\
    entries_within (- (sqrt (6 / 2) / 30)) (sqrt (6 / 2) / 30)
                   (weight (linear l)).
Proof.
  apply (SineLayer_init_weight_bounds 2 3 true false 30 half);
    [lia | lia | lra | exact half_fair].
Defined.

Lemma range_length n : length (range n) = Z.to_nat n.
Proof. unfold range. now rewrite length_map, length_seq. Qed.

Lemma sw_Siren_init n_in n_out nr_hidden hiddendim outermost_linear
    first_omega hidden_omega :
  (0 < n_in)%Z -> (0 <= n_out)%Z -> (0 < hiddendim)%Z -> 0 < hidden_omega ->
  succeeds_with
    (Siren_fresh nr_hidden hiddendim outermost_linear first_omega
                 hidden_omega)
    (Siren_init n_in n_out nr_hidden hiddendim outermost_linear
                first_omega hidden_omega).
Proof.
  intros Hi Ho Hh Hom. assert (Hpos : 0 < IZR hiddendim) by now apply IZR_lt.
  unfold Siren_init.
  eapply sw_bind.
  { apply (sw_SineLayer_init n_in hiddendim true true first_omega);
      [lia | lia | discriminate]. }
  cbn beta. intros first (Hfo & Hff & _).
  eapply sw_bind.
  { apply (sw_mapM (SineLayer_fresh hiddendim hiddendim false hidden_omega)).
    intros _ _. apply sw_SineLayer_init; [lia | lia | auto]. }
  cbn beta. intros hidden [Hlen Hhid]. rewrite range_length in Hlen.
  apply (sw_bind (fun final =>
    if outermost_linear
    then exists lin, final = Plain lin /\
           entries_within (- (sqrt (6 / IZR hiddendim) / hidden_omega))
                          (sqrt (6 / IZR hiddendim) / hidden_omega)
                          (weight lin)
    else exists l, final = Sine l /\ is_first l = false /\
           omega l = hidden_omega)).
  - destruct outermost_linear.
    + eapply sw_bind; [apply (sw_nn_Linear hiddendim n_out true); lia|].
      cbn beta. intros final_linear Hshape.
      eapply sw_bind; [apply sw_py_div; lia|]. intros q1 ->.
      eapply sw_bind; [apply sw_py_div; lia|]. intros q2 ->.
      rewrite !np_div_nonzero by lra.
      replace (- sqrt (6 / IZR hiddendim) / hidden_omega)
        with (- (sqrt (6 / IZR hiddendim) / hidden_omega)) by (field; lra).
      assert (Hb : 0 <= sqrt (6 / IZR hiddendim) / hidden_omega).
      { apply Rmult_le_pos;
          [apply sqrt_pos | apply Rlt_le, Rinv_0_lt_compat, Hom]. }
      eapply sw_bind.
      * apply (sw_uniform_ (weight final_linear)
                 (Z.to_nat n_out) (Z.to_nat hiddendim)
                 (- (sqrt (6 / IZR hiddendim) / hidden_omega))
                 (sqrt (6 / IZR hiddendim) / hidden_omega));
          [lra | exact Hshape].
      * cbn beta. intros w [_ Hw]. apply sw_ret. eexists. split; [reflexivity|].
        exact Hw.
    + eapply sw_bind.
      { apply (sw_SineLayer_init hiddendim n_out true false hidden_omega);
          [lia | lia | auto]. }
      cbn beta. intros l (Hlo & Hlf & _). apply sw_ret. eauto.
  - intros final Hfinal. apply sw_ret.
    exists first, hidden, final. repeat split; try assumption.
    eapply Forall_impl; [|exact Hhid].
    intros l (Hlo & Hlf & _). auto.
Qed.

(** C8.  A network constructed with positive input and hidden widths,
    a non-negative output width and a positive hidden omega consists,
    in order, of one sine layer with [is_first = true] and frequency
    [first_omega]; [nr_hidden] sine layers with [is_first = false] and
    frequency [hidden_omega]; and then, when [outermost_linear] is
    true, a plain linear layer whose weights lie within
    [sqrt(6/hiddendim)/hidden_omega] of zero, otherwise one more sine
    layer with [is_first = false]. *)
Theorem Siren_init_structure (n_in n_out nr_hidden hiddendim : Z)
    (outermost_linear : bool) (first_omega hidden_omega : R)
    (g : Generator) :
  (0 < n_in)%Z -> (0 <= n_out)%Z -> (0 < hiddendim)%Z -> 0 < hidden_omega ->
  fair g ->
  exists net g',
    Siren_init n_in n_out nr_hidden hiddendim outermost_linear
               first_omega hidden_omega g = Ok (net, g') /\
    Siren_fresh nr_hidden hiddendim outermost_linear first_omega
                hidden_omega net.
Proof.
  intros Hi Ho Hh Hom Hg.
  destruct (sw_Siren_init n_in n_out nr_hidden hiddendim outermost_linear
              first_omega hidden_omega Hi Ho Hh Hom g Hg)
    as (net & g' & E & _ & Hnet).
  now exists net, g'.
Qed.

Lemma Siren_init_structure_witness :
  exists net g',
    Siren_init 2 1 3 256 true 30 30 half = Ok (net, g') /\
    Siren_fresh 3 256 true 30 30 net.
Proof.
  apply (Siren_init_structure 2 1 3 256 true 30 30 half);
    [lia | lia | lia | lra | exact half_fair].
Defined.

(** ** Configurations that are refused, and configurations that are not *)

Lemma rejected_bind_py_div {B} a b (k : R -> M B) :
  (b <> 0%Z -> rejected (k (a / IZR b))) -> rejected (bind (py_div a b) k).
Proof.
  intros Hk. unfold py_div. destruct (Z.eqb_spec b 0).
  - apply rejected_bind_l, rejected_raise.
  - intros g. unfold bind, ret. now apply Hk.
Qed.

Lemma rejected_torch_empty rows cols :
  (rows < 0 \/ cols < 0)%Z -> rejected (torch_empty rows cols).
Proof.
  intros H. unfold torch_empty.
  destruct (Z.ltb_spec rows 0), (Z.ltb_spec cols 0);
    try apply rejected_raise; lia.
Qed.

Lemma rejected_nn_Linear n_in n_out with_bias :
  (n_in < 0 \/ n_out < 0)%Z -> rejected (nn_Linear n_in n_out with_bias).
Proof.
  intros H. unfold nn_Linear. apply rejected_bind_l, rejected_torch_empty. lia.
Qed.

Lemma rejected_uniform_ t q om :
  0 < q -> om <= 0 ->
  rejected (uniform_ t (np_div (- sqrt q) om) (np_div (sqrt q) om)).
Proof.
  intros Hq Hom. destruct (Req_dec_T om 0) as [->|Hne].
  - rewrite !np_div_zero. apply rejected_raise.
  - rewrite !np_div_nonzero by assumption. unfold uniform_.
    assert (Hs : 0 < sqrt q) by now apply sqrt_lt_R0.
    assert (Hinv : / om < 0) by (apply Rinv_lt_0_compat; lra).
    destruct (Rlt_dec (sqrt q / om) (- sqrt q / om)) as [_|Hn].
    + apply rejected_raise.
    + exfalso. apply Hn. unfold Rdiv. nra.
Qed.

Lemma rejected_SineLayer_init_first n_in n_out with_bias om :
  (n_in <= 0)%Z -> rejected (SineLayer_init n_in n_out with_bias true om).
Proof.
  intros Hi. unfold SineLayer_init.
  destruct (Z.eq_dec n_in 0) as [->|Hne].
  - apply rejected_bind_r. intros linear0. apply rejected_bind_l.
    apply rejected_bind_py_div. congruence.
  - apply rejected_bind_l, rejected_nn_Linear. lia.
Qed.

Lemma rejected_SineLayer_init_hidden n_in n_out with_bias om :
  (n_in <= 0)%Z \/ om <= 0 ->
  rejected (SineLayer_init n_in n_out with_bias false om).
Proof.
  intros H. unfold SineLayer_init.
  destruct (Z.ltb_spec n_in 0) as [Hneg|Hnn].
  { apply rejected_bind_l, rejected_nn_Linear. lia. }
  apply rejected_bind_r. intros linear0. apply rejected_bind_l.
  apply rejected_bind_py_div. intros Hne.
  apply rejected_bind_py_div. intros _.
  apply rejected_uniform_.
  - apply Rdiv_lt_0_compat; [lra | apply IZR_lt; lia].
  - destruct H; [lia | assumption].
Qed.

Lemma rejected_Siren_init n_in n_out nr_hidden hiddendim outermost_linear
    first_omega hidden_omega :
  (n_in <= 0)%Z \/ (n_out < 0)%Z \/ (hiddendim <= 0)%Z \/ hidden_omega <= 0 ->
  rejected (Siren_init n_in n_out nr_hidden hiddendim outermost_linear
                       first_omega hidden_omega).
Proof.
  intros H. unfold Siren_init.
  destruct (Z.leb_spec n_in 0) as [Hin|Hin].
  { now apply rejected_bind_l, rejected_SineLayer_init_first. }
  apply rejected_bind_r. intros first.
  apply rejected_bind_r. intros hidden.
  apply rejected_bind_l.
  destruct outermost_linear.
  - destruct (Z.ltb_spec n_out 0) as [Hout|Hout].
    { apply rejected_bind_l, rejected_nn_Linear. lia. }
    destruct (Z.ltb_spec hiddendim 0) as [Hneg|Hnn].
    { apply rejected_bind_l, rejected_nn_Linear. lia. }
    apply rejected_bind_r. intros final_linear.
    apply rejected_bind_py_div. intros Hne.
    apply rejected_bind_py_div. intros _.
    apply rejected_bind_l, rejected_uniform_.
    + apply Rdiv_lt_0_compat; [lra | apply IZR_lt; lia].
    + destruct H as [?|[?|[?|?]]]; [lia | lia | lia | assumption].
  - destruct (Z.ltb_spec n_out 0) as [Hout|Hout].
    { apply rejected_bind_l. unfold SineLayer_init.
      apply rejected_bind_l, rejected_nn_Linear. lia. }
    apply rejected_bind_l, rejected_SineLayer_init_hidden.
    destruct H as [?|[?|[?|?]]]; [lia | lia | now left | now right].
Qed.

Lemma project_image_negative_bins image thetas nr_B nr_S :
  (nr_B < 0)%Z -> project_image image thetas nr_B nr_S = Raise ValueError.
Proof.
  intros H. unfold project_image, np_linspace.
  destruct (Z.ltb_spec nr_B 0); [reflexivity | lia].
Qed.

(** C9, as the code has it.  Nothing in the constructors checks the
    configuration; what is refused is refused by the arithmetic or by
    the tensor library.  A network with a non-positive input or hidden
    width, a negative output width or a non-positive hidden omega
    fails at construction, and so does a projection with a negative
    bin count.  The number of hidden layers and the first-layer omega
    are not checked at all: with the other parameters valid,
    construction succeeds for every [nr_hidden] (a non-positive one
    gives no hidden layer) and every [first_omega]. *)
Theorem construction_checks (n_in n_out nr_hidden hiddendim : Z)
    (outermost_linear : bool) (first_omega hidden_omega : R)
    (image : Tensor2) (thetas : list R) (nr_B : Z) (nr_S : option Z) :
  ((n_in <= 0)%Z \/ (n_out < 0)%Z \/ (hiddendim <= 0)%Z \/ hidden_omega <= 0 ->
   rejected (Siren_init n_in n_out nr_hidden hiddendim outermost_linear
                        first_omega hidden_omega)) /\
  ((nr_B < 0)%Z ->
   project_image image thetas nr_B nr_S = Raise ValueError) /\
  ((0 < n_in)%Z -> (0 <= n_out)%Z -> (0 < hiddendim)%Z -> 0 < hidden_omega ->
   accepted (Siren_init n_in n_out nr_hidden hiddendim outermost_linear
                        first_omega hidden_omega)).
Proof.
  split; [apply rejected_Siren_init|].
  split; [apply project_image_negative_bins|].
  intros Hi Ho Hh Hom. eapply sw_accepted. now apply sw_Siren_init.
Qed.

Lemma construction_checks_witness :
  rejected (Siren_init 2 1 3 0 true 30 30) /\
  project_image image_1234 [0] (-1) None = Raise ValueError /\
  accepted (Siren_init 2 1 (-1) 256 true 0 30).
Proof.
  destruct (construction_checks 2 1 3 0 true 30 30 image_1234 [0] (-1) None)
    as (H1 & H2 & _).
  destruct (construction_checks 2 1 (-1) 256 true 0 30 image_1234 [0] 1 None)
    as (_ & _ & H3).
  split; [apply H1; right; right; left; lia|].
  split; [apply H2; lia|].
  apply H3; [lia | lia | lia | lra].
Defined.

(** C9 as worded fails: a network with layer count -1 and first-layer
    omega 0 is constructed without any error. *)
Lemma nonpositive_configuration_accepted :
  ~ rejected (Siren_init 2 1 (-1) 256 true 0 30).
Proof.
  apply accepted_not_rejected. eapply sw_accepted.
  apply sw_Siren_init; [lia | lia | lia | lra].
Qed.

(** ** The forward pass *)

Lemma tabulate_nth_self {A} (l : list A) d :
  tabulate (length l) (fun t => nth t l d) = l.
Proof.
  rewrite (tabulate_as_map (fun a => a) l d). apply map_id.
Qed.

(** Column [j] of the transposed weight matrix is row [j] of the
    weight matrix. *)
Lemma column_transpose (W : Tensor2) n j :
  (1 <= n)%nat -> Forall (fun row => length row = n) W ->
  (j < length W)%nat ->
  column j (transpose W) = nth j W [].
Proof.
  intros Hn HW Hj. unfold transpose, shape2, column.
  assert (Hhd : length (hd [] W) = n).
  { destruct W as [|w W']; [simpl in Hj; lia|]. now inversion HW. }
  rewrite Hhd. unfold tabulate at 1. rewrite map_map.
  erewrite map_ext_in.
  2:{ intros t Ht. rewrite tabulate_nth by assumption. reflexivity. }
  fold (tabulate n (fun t => nth t (nth j W []) 0)).
  assert (Hrow : length (nth j W []) = n).
  { rewrite Forall_forall in HW. apply HW. now apply nth_In. }
  rewrite <- Hrow. apply tabulate_nth_self.
Qed.

Lemma shape2_transpose (W : Tensor2) n :
  (1 <= n)%nat -> Forall (fun row => length row = n) W -> W <> [] ->
  shape2 (transpose W) = (n, length W).
Proof.
  intros Hn HW Hne. unfold transpose, shape2.
  assert (Hhd : length (hd [] W) = n).
  { destruct W as [|w W']; [congruence|]. now inversion HW. }
  rewrite Hhd, tabulate_length. f_equal.
  destruct n as [|n']; [lia|].
  unfold tabulate at 1. cbn [seq map hd]. apply tabulate_length.
Qed.

Lemma matmul_transpose (x W : Tensor2) n :
  (1 <= n)%nat -> Forall (fun row => length row = n) W ->
  matmul x (transpose W) = map (fun row => map (fun w => dot row w) W) x.
Proof.
  intros Hn HW. unfold matmul.
  destruct W as [|w0 W'] eqn:EW.
  - unfold transpose, shape2. cbn [length hd tabulate seq map].
    apply map_ext. reflexivity.
  - rewrite <- EW in *.
    rewrite (shape2_transpose W n) by (auto; congruence).
    apply map_ext. intros row.
    rewrite <- (tabulate_as_map (fun w => dot row w) W []).
    apply tabulate_ext. intros j Hj.
    now rewrite (column_transpose W n).
Qed.

(** C7.  For a sine layer with weight matrix [W] (rows of a common
    length at least 1), bias [b] and frequency [omega], and every
    input batch [x], [forward(x)] is [sin(omega * (x @ W^T + b))]
    taken elementwise. *)
Theorem SineLayer_forward_formula (l : SineLayer) (b : list R) (n : nat)
    (x : Tensor2) :
  bias (linear l) = Some b ->
  (1 <= n)%nat -> Forall (fun row => length row = n) (weight (linear l)) ->
  SineLayer_forward l x
  = forward_as_specified (weight (linear l)) b (omega l) x.
Proof.
  intros Hb Hn HW. unfold SineLayer_forward, forward_as_specified,
    Linear_forward, add_rowwise.
  rewrite Hb, (matmul_transpose x _ n) by assumption.
  rewrite !map_map. apply map_ext. intros row. now rewrite map_map.
Qed.

Lemma SineLayer_forward_formula_witness :
  SineLayer_forward (mkSineLayer 30 true 2 (mkLinear [[1; 2]; [3; 4]; [5; 6]]
                                                     (Some [1; 1; 1])))
                    [[0; 1]; [1; 0]]
  = forward_as_specified [[1; 2]; [3; 4]; [5; 6]] [1; 1; 1] 30
                         [[0; 1]; [1; 0]].
Proof.
  apply (SineLayer_forward_formula
           (mkSineLayer 30 true 2 (mkLinear [[1; 2]; [3; 4]; [5; 6]]
                                            (Some [1; 1; 1])))
           [1; 1; 1] 2 [[0; 1]; [1; 0]]).
  - reflexivity.
  - lia.
  - repeat constructor.
Defined.

Lemma SineLayer_forward_bounded (l : SineLayer) (x : Tensor2) :
  entries_within (-1) 1 (SineLayer_forward l x).
Proof.
  unfold entries_within, SineLayer_forward.
  apply Forall_map, Forall_forall. intros row _.
  apply Forall_map, Forall_forall. intros v _. apply SIN_bound.
Qed.

(** When the last layer of a network is a sine layer, the last
    periodic activation is the output of the network. *)
Lemma periodic_activations_last net l coords :
  last (periodic_activations (net ++ [Sine l]) coords) []
  = Siren_forward (net ++ [Sine l]) coords.
Proof.
  unfold Siren_forward. revert coords.
  induction net as [|layer net IH]; intros coords; [reflexivity|].
  cbn [app periodic_activations fold_left].
  destruct layer as [s|p]; [|apply IH].
  rewrite <- IH.
  destruct (periodic_activations (net ++ [Sine l])
              (Layer_forward (Sine s) coords)) eqn:E; [|reflexivity].
  exfalso. clear IH. revert E. generalize (Layer_forward (Sine s) coords).
  induction net as [|[s'|p'] net IHn]; intros y; cbn; try discriminate.
  apply IHn.
Qed.

(** *** The bound on machine floats *)

Lemma FSineLayer_forward_entries ops l x :
  sin_contract ops ->
  Forall2 (Forall2 sine_of_preactivation)
          (FSineLayer_preactivation ops l x) (FSineLayer_forward ops l x).
Proof.
  intros [Hnan Hfin]. unfold FSineLayer_forward.
  induction (FSineLayer_preactivation ops l x) as [|row rows IH];
    cbn [map]; constructor; [|exact IH].
  induction row as [|p row IHr]; cbn [map]; constructor; [|exact IHr].
  destruct p as [v|]; cbn [sine_of_preactivation]; [apply Hfin | exact Hnan].
Qed.

Lemma FSineLayer_forward_unit_or_nan ops l x :
  sin_contract ops ->
  Forall (Forall unit_or_nan) (FSineLayer_forward ops l x).
Proof.
  intros [Hnan Hfin]. unfold FSineLayer_forward.
  apply Forall_map, Forall_forall. intros row _.
  apply Forall_map, Forall_forall. intros p _.
  destruct p as [v|]; [right; apply Hfin | left; exact Hnan].
Qed.

(** C10, as the code has it.  Whatever multiplication and addition
    round to, an output entry of a sine layer lies in [[-1, 1]] when
    its pre-activation [omega * (x W^T + b)] is finite, and is NaN when
    the pre-activation is infinite or NaN (a non-finite input or
    parameter, or an overflow).  Hence every output of a sine layer
    inside a network is in [[-1, 1]] or NaN. *)
Theorem sine_outputs_unit_or_nan (ops : FloatOps) :
  sin_contract ops ->
  (forall (l : FSineLayer) (x : FTensor2),
     Forall2 (Forall2 sine_of_preactivation)
             (FSineLayer_preactivation ops l x)
             (FSineLayer_forward ops l x)) /\
  (forall (net : list FLayer) (coords : FTensor2),
     Forall (Forall (Forall unit_or_nan))
            (Fperiodic_activations ops net coords)).
Proof.
  intros Hc. split; [intros; now apply FSineLayer_forward_entries|].
  induction net as [|layer net IH]; intros coords;
    cbn [Fperiodic_activations].
  - constructor.
  - destruct layer as [s|p]; cbn [FLayer_forward].
    + constructor; [now apply FSineLayer_forward_unit_or_nan | apply IH].
    + apply IH.
Qed.

Lemma exact_ops_sin_contract : sin_contract exact_ops.
Proof.
  split; [reflexivity|]. intros v. exists (sin v).
  split; [reflexivity | apply SIN_bound].
Qed.

Lemma sine_outputs_unit_or_nan_witness :
  Forall2 (Forall2 sine_of_preactivation)
          (FSineLayer_preactivation exact_ops finite_layer nan_batch)
          (FSineLayer_forward exact_ops finite_layer nan_batch) /\
  Forall (Forall (Forall unit_or_nan))
         (Fperiodic_activations exact_ops [FSine finite_layer] nan_batch).
Proof.
  destruct (sine_outputs_unit_or_nan exact_ops exact_ops_sin_contract)
    as [H1 H2].
  split; [apply H1 | apply H2].
Defined.

(** C10 as worded fails: a layer with finite parameters, given a
    coordinate that is NaN, returns NaN, which is not in [[-1, 1]]. *)
Lemma always_in_unit_fails : ~ always_in_unit exact_ops.
Proof.
  intros H. specialize (H finite_layer nan_batch).
  inversion H as [|row rows Hrow _]; subst.
  inversion Hrow as [|e es He _]; subst.
  destruct He as (y & Hy & _). discriminate Hy.
Qed.

(** On finite values, without rounding, the float forward pass is the
    forward pass on real numbers. *)
Lemma fdot_exact u v :
  fdot exact_ops (map Some u) (map Some v) = Some (dot u v).
Proof.
  unfold fdot, dot, Rsum. revert v.
  induction u as [|a u IH]; intros [|b v]; try reflexivity.
  cbn [map zipWith fold_right]. rewrite IH. reflexivity.
Qed.

Lemma zipWith_lift2_Some f u v :
  zipWith (lift2 f) (map Some u) (map Some v) = map Some (zipWith f u v).
Proof.
  revert v. induction u as [|a u IH]; intros [|b v]; try reflexivity.
  cbn [map zipWith]. now rewrite IH.
Qed.

Lemma FSineLayer_forward_exact l x :
  FSineLayer_forward exact_ops (to_float_layer l) (to_floats x)
  = to_floats (SineLayer_forward l x).
Proof.
  unfold FSineLayer_forward, FSineLayer_preactivation, FLinear_forward,
    SineLayer_forward, Linear_forward, to_floats, to_float_layer.
  cbn [fomega flinear fweight fbias]. rewrite !map_map.
  apply map_ext. intros row. unfold to_floats.
  assert (Hd : map (fun w => fdot exact_ops (map Some row) w)
                   (map (map Some) (weight (linear l)))
               = map Some (map (fun w => dot row w) (weight (linear l)))).
  { rewrite !map_map. apply map_ext. intros w. apply fdot_exact. }
  rewrite Hd. destruct (bias (linear l)) as [b|]; cbn [option_map].
  - change (fadd exact_ops) with (lift2 Rplus).
    rewrite zipWith_lift2_Some, !map_map. reflexivity.
  - rewrite !map_map. reflexivity.
Qed.

(** ** The classes of the introductory notebook

    They construct the same layers and the same network (with a plain
    output layer) as the classes above, so C3, C7 and C8 carry
    over to them. *)

Lemma mapM_fmap {A B B'} (h : B -> B') (f : A -> M B) (f' : A -> M B') l :
  (forall a g, f' a g = fmap h (f a) g) ->
  forall g, mapM f' l g = fmap (map h) (mapM f l) g.
Proof.
  intros Hf. induction l as [|a l IH]; intros g; [reflexivity|].
  cbn [mapM]. unfold fmap, bind in *. rewrite Hf.
  destruct (f a g) as [[b g1]|e]; [|reflexivity]. cbn.
  rewrite IH. destruct (mapM f l g1) as [[bs g2]|e]; reflexivity.
Qed.

Lemma uniform_ext t lo lo' hi hi' g :
  lo = lo' -> hi = hi' ->
  uniform_ t (Some lo) (Some hi) g = uniform_ t (Some lo') (Some hi') g.
Proof. now intros -> ->. Qed.

Lemma intro_SineLayer_init_agrees n_in n_out with_bias first om g :
  first = true \/ om <> 0 ->
  Intro.SineLayer_init n_in n_out with_bias first om g
  = fmap to_intro (SineLayer_init n_in n_out with_bias first om) g.
Proof.
  intros Hom. unfold Intro.SineLayer_init, SineLayer_init, fmap, bind.
  destruct (nn_Linear n_in n_out with_bias g) as [[linear0 g1]|e];
    [|reflexivity].
  unfold py_div, py_fdiv, np_div, raise, ret.
  destruct first.
  - destruct (Z.eqb_spec n_in 0) as [Hz|Hz]; [reflexivity|].
    assert (IZR n_in <> 0) by (now apply not_0_IZR).
    rewrite (uniform_ext _ (- (1 / IZR n_in)) (-1 / IZR n_in)
                         (1 / IZR n_in) (1 / IZR n_in))
      by (try reflexivity; field; assumption).
    destruct (uniform_ _ _ _ g1) as [[w g2]|e]; reflexivity.
  - destruct (Z.eqb_spec n_in 0) as [Hz|Hz]; [reflexivity|].
    destruct Hom as [Hom|Hom]; [discriminate|].
    destruct (Req_dec_T om 0) as [?|_]; [contradiction|].
    rewrite (uniform_ext _ (- (sqrt (6 / IZR n_in) / om))
                         (- sqrt (6 / IZR n_in) / om)
                         (sqrt (6 / IZR n_in) / om)
                         (sqrt (6 / IZR n_in) / om))
      by (try reflexivity; field; assumption).
    destruct (uniform_ _ _ _ g1) as [[w g2]|e]; reflexivity.
Qed.

Lemma bind_run {A B} (m : M A) (k : A -> M B) g :
  bind m k g = match m g with
               | Ok (a, g') => k a g'
               | Raise e => Raise e
               end.
Proof. reflexivity. Qed.

Lemma fmap_run {A B} (f : A -> B) (m : M A) g :
  fmap f m g = match m g with
               | Ok (a, g') => Ok (f a, g')
               | Raise e => Raise e
               end.
Proof. unfold fmap, bind. destruct (m g) as [[a g1]|e]; reflexivity. Qed.

Lemma fmap_bind {A B C} (f : B -> C) (m : M A) (k : A -> M B) g :
  fmap f (bind m k) g = bind m (fun a => fmap f (k a)) g.
Proof. unfold fmap, bind. destruct (m g) as [[a g1]|e]; reflexivity. Qed.

Lemma intro_Siren_init_agrees n_in n_out nr_hidden hiddendim
    first_omega hidden_omega g :
  hidden_omega <> 0 ->
  Intro.Siren_init n_in n_out nr_hidden hiddendim first_omega hidden_omega g
  = fmap (map to_intro_layer)
         (Siren_init n_in n_out nr_hidden hiddendim true
                     first_omega hidden_omega) g.
Proof.
  intros Hom. unfold Intro.Siren_init, Siren_init.
  rewrite fmap_bind, !bind_run.
  rewrite intro_SineLayer_init_agrees, fmap_run by now left.
  destruct (SineLayer_init n_in hiddendim true true first_omega g)
    as [[first g1]|e]; [|reflexivity].
  cbv beta iota. rewrite fmap_bind, !bind_run.
  rewrite (mapM_fmap to_intro
             (fun _ => SineLayer_init hiddendim hiddendim true false
                                      hidden_omega))
    by (intros; now rewrite intro_SineLayer_init_agrees by now right).
  rewrite fmap_run.
  destruct (mapM _ (range nr_hidden) g1) as [[hidden g2]|e]; [|reflexivity].
  cbv beta iota. unfold fmap, bind.
  destruct (nn_Linear hiddendim n_out true g2) as [[final_linear g3]|e];
    [|reflexivity].
  unfold py_div, py_fdiv, np_div, raise, ret.
  destruct (Z.eqb_spec hiddendim 0) as [Hz|Hz]; [reflexivity|].
  destruct (Req_dec_T hidden_omega 0) as [?|_]; [contradiction|].
  assert (IZR hiddendim <> 0) by (now apply not_0_IZR).
  rewrite (uniform_ext _ (- (sqrt (6 / IZR hiddendim) / hidden_omega))
                       (- sqrt (6 / IZR hiddendim) / hidden_omega)
                       (sqrt (6 / IZR hiddendim) / hidden_omega)
                       (sqrt (6 / IZR hiddendim) / hidden_omega))
    by (try reflexivity; field; assumption).
  destruct (uniform_ _ _ _ g3) as [[w g4]|e]; [|reflexivity].
  rewrite map_app. cbn [map to_intro_layer]. now rewrite !map_map.
Qed.

Lemma intro_SineLayer_forward_agrees l x :
  Intro.SineLayer_forward (to_intro l) x = SineLayer_forward l x.
Proof. reflexivity. Qed.

(* ================================================================== *)
(** * Part III: further properties of the code *)

(** ** The projector of an image *)

(** X1.  What [project_image] computes.  With at least one bin and
    one sample the call succeeds; the sinogram has one row per angle,
    one entry per position [sj] of the sample axis, and the entry is
    the mean, over the positions [bi] of the bin axis, of the
    interpolated image at [(sj cos - bi sin, sj sin + bi cos)]. *)
Theorem project_image_entries (image : Tensor2) (thetas : list R)
    (nr_B : Z) (nr_S : option Z) :
  (1 <= nr_B)%Z -> (1 <= py_or nr_S nr_B)%Z ->
  project_image image thetas nr_B nr_S
  = Ok (map (fun theta =>
          map (fun sj =>
            mean (map (fun bi =>
                    interp_image image
                      (sj * cos theta - bi * sin theta,
                       sj * sin theta + bi * cos theta))
                  (linspace (-1) 1 (Z.to_nat nr_B))))
          (linspace (-1) 1 (Z.to_nat (py_or nr_S nr_B)))) thetas).
Proof.
  intros HB HS. now apply (project_image_rows _ _ nr_B (py_or nr_S nr_B)).
Qed.

Lemma project_image_entries_witness :
  project_image image_1234 [0; PI] 3 None
  = Ok (map (fun theta =>
          map (fun sj =>
            mean (map (fun bi =>
                    interp_image image_1234
                      (sj * cos theta - bi * sin theta,
                       sj * sin theta + bi * cos theta))
                  (linspace (-1) 1 (Z.to_nat 3))))
          (linspace (-1) 1 (Z.to_nat (py_or None 3)))) [0; PI]).
Proof. apply project_image_entries; simpl; lia. Defined.

(** X2.  The shape of the sinogram.  It has one row per angle.  When
    [nr_S] is omitted or 0 every row has [nr_B] entries; when [nr_S]
    is given and positive every row has [nr_S] entries, whatever
    [nr_B] is. *)
Theorem project_image_sinogram_shape (image : Tensor2) (thetas : list R)
    (nr_B nr_S : Z) :
  (1 <= nr_B)%Z -> (1 <= nr_S)%Z ->
  (exists p, project_image image thetas nr_B None = Ok p /\
             has_shape (length thetas) (Z.to_nat nr_B) p) /\
  (exists p, project_image image thetas nr_B (Some 0%Z) = Ok p /\
             has_shape (length thetas) (Z.to_nat nr_B) p) /\
  (exists p, project_image image thetas nr_B (Some nr_S) = Ok p /\
             has_shape (length thetas) (Z.to_nat nr_S) p).
Proof.
  intros HB HS. unfold has_shape.
  split; [|split].
  - destruct (project_image_shape image thetas nr_B nr_B None HB eq_refl HB)
      as (p & E & Hl & Hr). eauto.
  - destruct (project_image_shape image thetas nr_B nr_B (Some 0%Z)
                HB eq_refl HB) as (p & E & Hl & Hr). eauto.
  - assert (Hor : py_or (Some nr_S) nr_B = nr_S).
    { unfold py_or. destruct (Z.eqb_spec nr_S 0); [lia | reflexivity]. }
    destruct (project_image_shape image thetas nr_B nr_S (Some nr_S)
                HB Hor HS) as (p & E & Hl & Hr). eauto.
Qed.

Lemma project_image_sinogram_shape_witness :
  exists p, project_image image_1234 [0; PI] 2 (Some 5%Z) = Ok p /\
            has_shape 2 5 p.
Proof.
  destruct (project_image_sinogram_shape image_1234 [0; PI] 2 5) as (_ & _ & H);
    [lia | lia | exact H].
Defined.

(** X3.  Every row of the sinogram depends only on its own angle: row
    [t] of the projection at a list of angles is the single row of the
    projection at the angle [thetas[t]] alone. *)
Theorem project_image_row_of_angle (image : Tensor2) (thetas : list R)
    (nr_B : Z) (nr_S : option Z) (t : nat) :
  (1 <= nr_B)%Z -> (1 <= py_or nr_S nr_B)%Z -> (t < length thetas)%nat ->
  exists p row,
    project_image image thetas nr_B nr_S = Ok p /\
    project_image image [nth t thetas 0] nr_B nr_S = Ok [row] /\
    nth t p [] = row.
Proof.
  intros HB HS Ht.
  rewrite !(project_image_rows image _ nr_B (py_or nr_S nr_B)) by auto.
  eexists. eexists. split; [reflexivity|]. split; [reflexivity|].
  now rewrite (nth_map_in _ thetas t [] 0).
Qed.

Lemma project_image_row_of_angle_witness :
  exists p row,
    project_image image_1234 [0; PI] 2 None = Ok p /\
    project_image image_1234 [nth 1 [0; PI] 0] 2 None = Ok [row] /\
    nth 1 p [] = row.
Proof.
  apply (project_image_row_of_angle image_1234 [0; PI] 2 None 1);
    simpl; lia.
Defined.

(** *** Constant images *)

Lemma nth_full r c v a b :
  (a < r)%nat -> (b < c)%nat -> nth b (nth a (full r c v) []) 0 = v.
Proof.
  intros Ha Hb. unfold full.
  rewrite (nth_indep _ [] (repeat v c)) by now rewrite repeat_length.
  rewrite nth_repeat.
  rewrite (nth_indep _ 0 v) by now rewrite repeat_length.
  apply nth_repeat.
Qed.

Lemma shape2_full r c v : (1 <= r)%nat -> shape2 (full r c v) = (r, c).
Proof.
  intros Hr. unfold shape2, full. rewrite repeat_length.
  destruct r; [lia|]. cbn [repeat hd]. now rewrite repeat_length.
Qed.

Lemma out_of_bounds_inside n x :
  (2 <= n)%nat -> -1 <= x <= 1 -> out_of_bounds (linspace (-1) 1 n) x = false.
Proof.
  intros Hn Hx. unfold out_of_bounds.
  rewrite hd_as_nth, linspace_first by lia.
  rewrite last_as_nth, linspace_length, linspace_last by lia.
  now rewrite !Rltb_false by lra.
Qed.

(** Inside the square the interpolated constant image is the
    constant: the four weights of a cell add up to one. *)
Lemma interp_image_full r c v x y :
  (2 <= r)%nat -> (2 <= c)%nat -> inside_square x y ->
  interp_image (full r c v) (x, y) = v.
Proof.
  intros Hr Hc [Hx Hy]. unfold interp_image.
  rewrite shape2_full by lia. unfold RegularGridInterpolator, find_index.
  rewrite !linspace_length, !out_of_bounds_inside by assumption.
  cbn [orb].
  set (i := Nat.min _ (r - 2)). set (j := Nat.min _ (c - 2)).
  assert (Hi : (i <= r - 2)%nat) by apply Nat.le_min_r.
  assert (Hj : (j <= c - 2)%nat) by apply Nat.le_min_r.
  rewrite !nth_full by lia. ring.
Qed.

Lemma mean_const {A} (l : list A) v :
  l <> [] -> mean (map (fun _ => v) l) = v.
Proof.
  intros Hne. unfold mean. rewrite length_map.
  assert (Hs : Rsum (map (fun _ => v) l) = INR (length l) * v).
  { clear Hne. induction l as [|a l IH]; [simpl; lra|].
    change (Rsum (map (fun _ => v) (a :: l)))
      with (v + Rsum (map (fun _ => v) l)).
    change (length (a :: l)) with (S (length l)).
    rewrite IH, S_INR. lra. }
  rewrite Hs. field. apply not_0_INR. destruct l; [congruence | discriminate].
Qed.

Lemma linspace_nonempty a b n : (1 <= n)%nat -> linspace a b n <> [].
Proof.
  intros Hn E. apply (f_equal (@length R)) in E.
  rewrite linspace_length in E. simpl in E. lia.
Qed.

(** X5.  A constant image projects to a constant sinogram.  When no
    rotated sample point leaves the square, every entry of the
    projection of the image that is [v] everywhere equals [v]. *)
Theorem project_image_constant (r c : nat) (v : R) (thetas : list R)
    (nr_B nr_S : Z) :
  (2 <= r)%nat -> (2 <= c)%nat -> (1 <= nr_B)%Z -> (1 <= nr_S)%Z ->
  (forall theta bi sj,
     In theta thetas -> In bi (linspace (-1) 1 (Z.to_nat nr_B)) ->
     In sj (linspace (-1) 1 (Z.to_nat nr_S)) ->
     inside_square (sj * cos theta - bi * sin theta)
                   (sj * sin theta + bi * cos theta)) ->
  project_image (full r c v) thetas nr_B (Some nr_S)
  = Ok (map (fun _ => repeat v (Z.to_nat nr_S)) thetas).
Proof.
  intros Hr Hc HB HS Hin.
  assert (Hor : py_or (Some nr_S) nr_B = nr_S).
  { unfold py_or. destruct (Z.eqb_spec nr_S 0); [lia | reflexivity]. }
  rewrite (project_image_rows _ _ nr_B nr_S) by auto. f_equal.
  apply map_ext_in. intros theta Ht.
  rewrite <- (linspace_length (-1) 1 (Z.to_nat nr_S)) at 2.
  rewrite <- map_const. apply map_ext_in. intros sj Hs.
  erewrite map_ext_in.
  - apply mean_const, linspace_nonempty. lia.
  - intros bi Hb. cbv beta. unfold specified_point.
    apply interp_image_full; auto.
Qed.

(** At angle 0 the sample grid is the square itself. *)
Lemma project_image_constant_witness :
  project_image (full 3 4 7) [0] 2 (Some 2%Z)
  = Ok (map (fun _ => repeat 7 (Z.to_nat 2)) [0]).
Proof.
  apply (project_image_constant 3 4 7 [0] 2 2); try lia.
  intros theta bi sj [<-|[]] Hb Hs.
  change (Z.to_nat 2) with 2%nat in *. rewrite linspace_two in *.
  rewrite cos_0, sin_0. unfold inside_square.
  destruct Hb as [<-|[<-|[]]]; destruct Hs as [<-|[<-|[]]]; lra.
Defined.

(** *** Linearity *)

Lemma zipWith_nth_default {A B C} (f : A -> B -> C) u v i da db dc :
  length u = length v -> f da db = dc ->
  nth i (zipWith f u v) dc = f (nth i u da) (nth i v db).
Proof.
  intros Hl Hd. revert v i Hl.
  induction u as [|a u IH]; intros [|b v] i Hl; try discriminate.
  - destruct i; simpl; auto.
  - destruct i; simpl; auto.
Qed.

Lemma has_shape_row r c t a :
  has_shape r c t -> length (nth a t []) = if (a <? r)%nat then c else 0%nat.
Proof.
  intros [Hl HF]. destruct (Nat.ltb_spec a r).
  - rewrite Forall_forall in HF. apply HF, nth_In. lia.
  - rewrite nth_overflow by lia. reflexivity.
Qed.

Lemma nth_image_add r c A B a b :
  has_shape r c A -> has_shape r c B ->
  nth b (nth a (image_add A B) []) 0
  = nth b (nth a A []) 0 + nth b (nth a B []) 0.
Proof.
  intros HA HB. unfold image_add.
  rewrite (zipWith_nth_default _ A B a [] [] [])
    by (try reflexivity; destruct HA, HB; congruence).
  apply zipWith_nth_default; [|lra].
  now rewrite (has_shape_row r c A), (has_shape_row r c B).
Qed.

Lemma nth_image_scale k A a b :
  nth b (nth a (image_scale k A) []) 0 = k * nth b (nth a A []) 0.
Proof.
  unfold image_scale.
  change (@nil R) with (map (fun v => k * v) []) at 1. rewrite map_nth.
  destruct (Nat.ltb_spec b (length (nth a A []))).
  - now apply nth_map_in.
  - rewrite !nth_overflow by (rewrite ?length_map; lia). ring.
Qed.

Lemma has_shape_image_scale r c k A :
  has_shape r c A -> has_shape r c (image_scale k A).
Proof.
  intros [Hl HF]. unfold image_scale. split; [now rewrite length_map|].
  apply Forall_map. eapply Forall_impl; [|exact HF].
  cbv beta. intros row Hr. now rewrite length_map.
Qed.

Lemma has_shape_image_add r c A B :
  has_shape r c A -> has_shape r c B -> has_shape r c (image_add A B).
Proof.
  intros HA HB. unfold image_add. split.
  - rewrite zipWith_length. destruct HA, HB. lia.
  - apply Forall_forall. intros row Hin.
    apply (In_nth _ _ []) in Hin. destruct Hin as (a & Ha & <-).
    rewrite zipWith_length in Ha.
    rewrite (zipWith_nth_default _ A B a [] [] [])
      by (try reflexivity; destruct HA, HB; congruence).
    rewrite zipWith_length, (has_shape_row r c A), (has_shape_row r c B)
      by assumption.
    destruct HA as [HlA _]. destruct (Nat.ltb_spec a r); lia.
Qed.

Lemma has_shape_shape2 r c t :
  (1 <= r)%nat -> has_shape r c t -> shape2 t = (r, c).
Proof.
  intros Hr [Hl HF]. unfold shape2. rewrite Hl. f_equal.
  destruct t as [|row t]; [simpl in Hl; lia|]. now inversion HF.
Qed.

Lemma interp_image_linear r c k A B p :
  (1 <= r)%nat -> has_shape r c A -> has_shape r c B ->
  interp_image (image_add (image_scale k A) B) p
  = k * interp_image A p + interp_image B p.
Proof.
  intros Hr HA HB. destruct p as [x y]. unfold interp_image.
  pose proof (has_shape_image_scale r c k A HA) as HkA.
  rewrite (has_shape_shape2 r c (image_add _ _))
    by (auto using has_shape_image_add).
  rewrite (has_shape_shape2 r c A), (has_shape_shape2 r c B) by auto.
  unfold RegularGridInterpolator.
  destruct (find_index _ x) as [i tx]. destruct (find_index _ y) as [j ty].
  rewrite !(nth_image_add r c) by assumption.
  rewrite !nth_image_scale.
  destruct (out_of_bounds _ x || out_of_bounds _ y); ring.
Qed.

Lemma Rsum_linear {A} (k : R) (f g : A -> R) l :
  Rsum (map (fun a => k * f a + g a) l)
  = k * Rsum (map f l) + Rsum (map g l).
Proof.
  induction l as [|a l IH]; [simpl; ring|].
  cbn [map]. unfold Rsum in *. cbn [fold_right]. rewrite IH. ring.
Qed.

Lemma mean_linear {A} (k : R) (f g : A -> R) l :
  mean (map (fun a => k * f a + g a) l)
  = k * mean (map f l) + mean (map g l).
Proof.
  unfold mean. rewrite Rsum_linear, !length_map. unfold Rdiv. ring.
Qed.

(** X6.  The projector is linear in the image.  For two images of
    the same shape, the sinogram of [k * A + B] is [k] times the
    sinogram of [A] plus the sinogram of [B], entry by entry. *)
Theorem project_image_linear (r c : nat) (k : R) (A B : Tensor2)
    (thetas : list R) (nr_B : Z) (nr_S : option Z) :
  (1 <= r)%nat -> has_shape r c A -> has_shape r c B ->
  (1 <= nr_B)%Z -> (1 <= py_or nr_S nr_B)%Z ->
  exists pA pB,
    project_image A thetas nr_B nr_S = Ok pA /\
    project_image B thetas nr_B nr_S = Ok pB /\
    project_image (image_add (image_scale k A) B) thetas nr_B nr_S
    = Ok (image_add (image_scale k pA) pB).
Proof.
  intros Hr HA HB HnB HnS.
  rewrite !(project_image_rows _ _ nr_B (py_or nr_S nr_B)) by auto.
  eexists. eexists. split; [reflexivity|]. split; [reflexivity|].
  apply f_equal. unfold image_add at 2. unfold image_scale at 2.
  rewrite map_map, zipWith_map_map. apply map_ext. intros theta.
  rewrite map_map, zipWith_map_map. apply map_ext. intros sj.
  rewrite <- mean_linear. f_equal. apply map_ext. intros bi.
  now apply (interp_image_linear r c).
Qed.

Lemma project_image_linear_witness :
  exists pA pB,
    project_image image_1234 [0; PI / 4] 3 None = Ok pA /\
    project_image (full 2 2 1) [0; PI / 4] 3 None = Ok pB /\
    project_image (image_add (image_scale 5 image_1234) (full 2 2 1))
                  [0; PI / 4] 3 None
    = Ok (image_add (image_scale 5 pA) pB).
Proof.
  apply (project_image_linear 2 2 5 image_1234 (full 2 2 1) [0; PI / 4] 3 None);
    try (simpl; lia); split; try reflexivity; repeat constructor.
Defined.

(** ** Evaluation of a model on a grid, and its projection *)

Lemma evaluate_points_rows N :
  evaluate_points N
  = concat (map (fun lj => map (fun li => [li; lj]) (linspace (-1) 1 N))
                (linspace (-1) 1 N)).
Proof.
  unfold evaluate_points, meshgrid_xy, stack_flat.
  rewrite zipWith_map_map. f_equal.
  apply map_ext. intros lj. now rewrite zipWith_map_r.
Qed.

(** X7.  The grid of [evaluate_model] is the grid of
    [image_coordinates] with the two coordinates of every point
    exchanged: pixel [(a, b)] of the evaluated image is the model at
    the point that [image_coordinates] gives to pixel [(b, a)]. *)
Theorem evaluate_points_transposed (N : nat) :
  evaluate_points N
  = map (fun p => [snd p; fst p]) (image_coordinates (N, N)).
Proof.
  rewrite evaluate_points_rows, image_coordinates_rows, concat_map, map_map.
  f_equal. apply map_ext. intros lj. now rewrite map_map.
Qed.

Lemma reshape2_rows {A B} (g : A -> B -> R) (x : list A) (y : list B)
    (out : Tensor2) :
  concat out = concat (map (fun a => map (g a) y) x) ->
  reshape2 (length x) (length y) out = map (fun a => map (g a) y) x.
Proof.
  intros Hflat. unfold reshape2. rewrite Hflat. clear Hflat.
  destruct x as [|a0 x'] eqn:Ex; [reflexivity|]. rewrite <- Ex in *.
  set (flat := concat (map (fun a => map (g a) y) x)).
  rewrite <- (tabulate_as_map (fun a => map (g a) y) x a0).
  apply tabulate_ext. intros k Hk.
  destruct y as [|b0 y'] eqn:Ey; [reflexivity|]. rewrite <- Ey in *.
  rewrite <- (tabulate_as_map (g (nth k x a0)) y b0).
  apply tabulate_ext. intros l Hl. unfold flat. rewrite <- Ey.
  apply (concat_rows_nth g x y k l a0 b0 0); assumption.
Qed.

Lemma concat_pointwise_rows {A B} (f : list R -> R) (e : list R -> list R)
    (h : A -> B -> list R) (x : list A) (y : list B) :
  concat (pointwise f (map e (concat (map (fun a => map (h a) y) x))))
  = concat (map (fun a => map (fun b => f (e (h a b))) y) x).
Proof.
  rewrite concat_pointwise, map_map, concat_map, map_map. f_equal.
  apply map_ext. intros a. now rewrite map_map.
Qed.

(** X8.  What [evaluate_model] returns for a model and an encoding
    that act point by point: an [N] by [N] image whose pixel in row
    [a] and column [b] is the model at the encoded point
    [(l_b, l_a)] - the column gives the first coordinate. *)
Theorem evaluate_model_pixels (e : list R -> list R) (f : list R -> R)
    (posenc : Z -> Tensor2 -> Tensor2) (N : nat) (L_embed : Z) :
  (forall pts, posenc L_embed pts = map e pts) ->
  evaluate_model posenc (pointwise f) N L_embed
  = map (fun la => map (fun lb => f (e [lb; la])) (linspace (-1) 1 N))
        (linspace (-1) 1 N).
Proof.
  intros He. unfold evaluate_model. rewrite He, evaluate_points_rows.
  rewrite <- (linspace_length (-1) 1 N) at 1 2.
  apply (reshape2_rows (fun la lb => f (e [lb; la]))).
  apply concat_pointwise_rows.
Qed.

Lemma evaluate_model_pixels_witness :
  evaluate_model no_encoding (pointwise (fun p => nth 0 p 0)) 3 6
  = map (fun la => map (fun lb => (fun p => nth 0 p 0)
                                    ((fun p : list R => p) [lb; la]))
                       (linspace (-1) 1 3))
        (linspace (-1) 1 3).
Proof.
  apply (evaluate_model_pixels (fun p => p) (fun p => nth 0 p 0)
                               no_encoding 3 6).
  intros pts. unfold no_encoding. symmetry. apply map_id.
Defined.

Lemma project_model_square_rows (e : list R -> list R) (f : list R -> R)
    (posenc : Z -> Tensor2 -> Tensor2) (theta : R) (n : nat) (L_embed : Z) :
  (forall pts, posenc L_embed pts = map e pts) ->
  project_model posenc (pointwise f) theta n n L_embed
  = map (fun sk =>
           1 / INR n
           * Rsum (map (fun bl =>
                          f (e [sk * cos theta + bl * sin theta;
                                bl * cos theta - sk * sin theta]))
                       (linspace (-1) 1 n)))
        (linspace (-1) 1 n).
Proof.
  intros He. unfold project_model. rewrite He, model_points_rows.
  rewrite <- (linspace_length (-1) 1 n) at 1 2.
  rewrite (reshape2_rows
             (fun sk bl => f (e [bl * sin theta + (sk * cos theta + 0);
                                 bl * cos theta + (sk * - sin theta + 0)])))
    by apply concat_pointwise_rows.
  rewrite map_map. apply map_ext. intros sk.
  do 2 f_equal. apply map_ext. intros bl. do 2 f_equal.
  f_equal; [ring | f_equal; ring].
Qed.

(** X9.  What [project_model] returns when the bin and sample counts
    are equal and at least 1, for a model and an encoding that act point by point:
    the mesh is laid out with one row per sample position, so entry
    [k] of the projection is the mean over the BIN axis of the model
    along the line of sample position [s_k]. *)
Theorem project_model_square (e : list R -> list R) (f : list R -> R)
    (posenc : Z -> Tensor2 -> Tensor2) (theta : R) (n : nat) (L_embed : Z) :
  (1 <= n)%nat ->
  (forall pts, posenc L_embed pts = map e pts) ->
  project_model posenc (pointwise f) theta n n L_embed
  = map (fun sk =>
           1 / INR n
           * Rsum (map (fun bl =>
                          f (e [sk * cos theta + bl * sin theta;
                                bl * cos theta - sk * sin theta]))
                       (linspace (-1) 1 n)))
        (linspace (-1) 1 n).
Proof. intros _. apply project_model_square_rows. Qed.

Lemma project_model_square_witness :
  project_model no_encoding (pointwise (fun p => nth 0 p 0)) (PI / 4) 3 3 6
  = map (fun sk =>
           1 / INR 3
           * Rsum (map (fun bl =>
                          (fun p => nth 0 p 0)
                            ((fun p : list R => p)
                               [sk * cos (PI / 4) + bl * sin (PI / 4);
                                bl * cos (PI / 4) - sk * sin (PI / 4)]))
                       (linspace (-1) 1 3)))
        (linspace (-1) 1 3).
Proof.
  apply (project_model_square (fun p => p) (fun p => nth 0 p 0)
                              no_encoding (PI / 4) 3 6); [lia|].
  intros pts. unfold no_encoding. symmetry. apply map_id.
Defined.

(** ** Shapes of a constructed network *)

Lemma sw_nn_Linear_shaped n_in n_out :
  (0 <= n_in)%Z -> (0 <= n_out)%Z ->
  succeeds_with (Linear_shaped (Z.to_nat n_in) (Z.to_nat n_out))
                (nn_Linear n_in n_out true).
Proof.
  intros Hi Ho. unfold nn_Linear.
  apply (sw_bind _ _ _ _ (sw_torch_empty n_out n_in Ho Hi)).
  intros w0 Hw0.
  assert (Hk : 0 <= (if (0 <? n_in)%Z then 1 / sqrt (IZR n_in) else 0)).
  { destruct (Z.ltb_spec 0 n_in); [|lra].
    assert (0 < sqrt (IZR n_in)) by (apply sqrt_lt_R0, IZR_lt; lia).
    apply Rlt_le, Rdiv_lt_0_compat; lra. }
  set (k := if (0 <? n_in)%Z then 1 / sqrt (IZR n_in) else 0) in *.
  apply (sw_bind (has_shape (Z.to_nat n_out) (Z.to_nat n_in))).
  { destruct ((n_in =? 0) || (n_out =? 0))%Z.
    - now apply sw_ret.
    - eapply sw_weaken.
      + apply (sw_uniform_ w0 (Z.to_nat n_out) (Z.to_nat n_in) (- k) k);
          [lra | exact Hw0].
      + now intros w [? _]. }
  intros w Hw.
  apply (sw_bind (fun ob => exists b, ob = Some b
                                      /\ length b = Z.to_nat n_out)).
  { eapply sw_bind; [apply (sw_uniform1_ _ (- k) k); lra|].
    cbv beta. intros b Hb. apply sw_ret. exists b.
    split; [reflexivity|]. now rewrite Hb, repeat_length. }
  intros ob (b & -> & Hb). apply sw_ret. split; [exact Hw|].
  exists b. auto.
Qed.

Lemma sw_SineLayer_init_shaped n_in n_out first om :
  (0 < n_in)%Z -> (0 <= n_out)%Z -> (first = false -> 0 < om) ->
  succeeds_with
    (fun l => omega l = om /\
              Linear_shaped (Z.to_nat n_in) (Z.to_nat n_out) (linear l))
    (SineLayer_init n_in n_out true first om).
Proof.
  intros Hi Ho Hom g Hg.
  destruct (sw_SineLayer_init n_in n_out true first om Hi Ho Hom g Hg)
    as (l & g' & E & Hg' & Hom' & _ & _ & Hshape & _).
  exists l, g'. split; [exact E|]. split; [exact Hg'|].
  split; [exact Hom'|]. split; [exact Hshape|].
  destruct (sw_nn_Linear_shaped n_in n_out ltac:(lia) Ho g Hg)
    as (l0 & g1 & E0 & _ & _ & b & Hb & Hlen).
  unfold SineLayer_init in E. rewrite bind_run, E0, bind_run in E.
  match type of E with
  | match ?X with _ => _ end = _ => destruct X as [[w g2]|e]
  end; [|discriminate].
  injection E as <- _. exists b. auto.
Qed.

Lemma sw_Siren_init_shaped n_in n_out nr_hidden hiddendim outermost_linear
    first_omega hidden_omega :
  (0 < n_in)%Z -> (0 <= n_out)%Z -> (0 < hiddendim)%Z -> 0 < hidden_omega ->
  succeeds_with
    (Siren_shaped (Z.to_nat n_in) (Z.to_nat n_out) (Z.to_nat nr_hidden)
                  (Z.to_nat hiddendim))
    (Siren_init n_in n_out nr_hidden hiddendim outermost_linear
                first_omega hidden_omega).
Proof.
  intros Hi Ho Hh Hom. assert (Hpos : 0 < IZR hiddendim) by now apply IZR_lt.
  unfold Siren_init.
  eapply sw_bind.
  { apply (sw_SineLayer_init_shaped n_in hiddendim true first_omega);
      [lia | lia | discriminate]. }
  cbn beta. intros first [_ Hfirst].
  eapply sw_bind.
  { apply (sw_mapM (fun l => omega l = hidden_omega /\
                     Linear_shaped (Z.to_nat hiddendim) (Z.to_nat hiddendim)
                                   (linear l))).
    intros _ _. apply sw_SineLayer_init_shaped; [lia | lia | auto]. }
  cbn beta. intros hidden [Hlen Hhid]. rewrite range_length in Hlen.
  apply (sw_bind (Layer_shaped (Z.to_nat hiddendim) (Z.to_nat n_out))).
  - destruct outermost_linear.
    + eapply sw_bind; [apply (sw_nn_Linear_shaped hiddendim n_out); lia|].
      cbn beta. intros final_linear [Hshape Hbias].
      eapply sw_bind; [apply sw_py_div; lia|]. intros q1 ->.
      eapply sw_bind; [apply sw_py_div; lia|]. intros q2 ->.
      rewrite !np_div_nonzero by lra.
      assert (Hb : 0 <= sqrt (6 / IZR hiddendim) / hidden_omega).
      { apply Rmult_le_pos;
          [apply sqrt_pos | apply Rlt_le, Rinv_0_lt_compat, Hom]. }
      replace (- sqrt (6 / IZR hiddendim) / hidden_omega)
        with (- (sqrt (6 / IZR hiddendim) / hidden_omega)) by (field; lra).
      eapply sw_bind.
      * apply (sw_uniform_ (weight final_linear)
                 (Z.to_nat n_out) (Z.to_nat hiddendim)
                 (- (sqrt (6 / IZR hiddendim) / hidden_omega))
                 (sqrt (6 / IZR hiddendim) / hidden_omega));
          [lra | exact Hshape].
      * cbn beta. intros w [Hw _]. apply sw_ret. split; assumption.
    + eapply sw_bind.
      { apply (sw_SineLayer_init_shaped hiddendim n_out false hidden_omega);
          [lia | lia | auto]. }
      cbn beta. intros l [_ Hl]. apply sw_ret. exact Hl.
  - intros final Hfinal. apply sw_ret.
    exists (Sine first), (map Sine hidden), final.
    split; [reflexivity|]. split; [exact Hfirst|].
    split; [now rewrite length_map|]. split; [|exact Hfinal].
    apply Forall_map. eapply Forall_impl; [|exact Hhid].
    cbv beta. now intros l [_ Hl].
Qed.

Lemma Linear_forward_shape n_in n_out l x :
  Linear_shaped n_in n_out l ->
  has_shape (length x) n_out (Linear_forward l x).
Proof.
  intros [[Hrows _] (b & Hb & Hlen)]. unfold Linear_forward. rewrite Hb.
  split; [now rewrite length_map|].
  apply Forall_map, Forall_forall. intros row _.
  rewrite zipWith_length, length_map. lia.
Qed.

Lemma Layer_forward_shape n_in n_out l x :
  Layer_shaped n_in n_out l ->
  has_shape (length x) n_out (Layer_forward l x).
Proof.
  intros Hl. destruct l as [s|p]; cbn [Layer_forward].
  - unfold SineLayer_forward.
    destruct (Linear_forward_shape n_in n_out (linear s) x Hl) as [Hr Hc].
    split; [now rewrite length_map|].
    apply Forall_map. eapply Forall_impl; [|exact Hc].
    cbv beta. intros row Hrow. now rewrite length_map.
  - now apply (Linear_forward_shape n_in).
Qed.

Lemma Siren_forward_app net1 net2 x :
  Siren_forward (net1 ++ net2) x = Siren_forward net2 (Siren_forward net1 x).
Proof. unfold Siren_forward. apply fold_left_app. Qed.

Lemma Siren_forward_length net x :
  length (Siren_forward net x) = length x.
Proof.
  unfold Siren_forward. revert x.
  induction net as [|l net IH]; intros x; [reflexivity|].
  cbn [fold_left]. rewrite IH.
  destruct l; cbn [Layer_forward]; unfold SineLayer_forward, Linear_forward;
    now rewrite ?length_map.
Qed.

Lemma Siren_forward_shape n_in n_out k h net x :
  Siren_shaped n_in n_out k h net ->
  has_shape (length x) n_out (Siren_forward net x).
Proof.
  intros (first & hidden & final & -> & _ & _ & _ & Hfinal).
  rewrite Siren_forward_app. unfold Siren_forward at 1. cbn [fold_left].
  rewrite <- (Siren_forward_length (first :: hidden) x).
  now apply (Layer_forward_shape h).
Qed.

(** X10.  The network maps a batch to a batch.  A network constructed
    with valid sizes, applied to a batch of [n] points of [indim]
    coordinates each, returns [n] rows of [outdim] values each. *)
Theorem Siren_forward_batch_shape (n_in n_out nr_hidden hiddendim : Z)
    (outermost_linear : bool) (first_omega hidden_omega : R)
    (g : Generator) (n : nat) (coords : Tensor2) :
  (0 < n_in)%Z -> (0 <= n_out)%Z -> (0 < hiddendim)%Z -> 0 < hidden_omega ->
  fair g -> has_shape n (Z.to_nat n_in) coords ->
  exists net g',
    Siren_init n_in n_out nr_hidden hiddendim outermost_linear
               first_omega hidden_omega g = Ok (net, g') /\
    has_shape n (Z.to_nat n_out) (Siren_forward net coords).
Proof.
  intros Hi Ho Hh Hom Hg [Hn _].
  destruct (sw_Siren_init_shaped n_in n_out nr_hidden hiddendim
              outermost_linear first_omega hidden_omega Hi Ho Hh Hom g Hg)
    as (net & g' & E & _ & Hnet).
  exists net, g'. split; [exact E|]. rewrite <- Hn.
  eapply Siren_forward_shape, Hnet.
Qed.

Lemma Siren_forward_batch_shape_witness :
  exists net g',
    Siren_init 2 1 3 4 true 30 30 half = Ok (net, g') /\
    has_shape 2 (Z.to_nat 1) (Siren_forward net [[0; 1]; [1; 0]]).
Proof.
  apply (Siren_forward_batch_shape 2 1 3 4 true 30 30 half 2
                                   [[0; 1]; [1; 0]]);
    try lia; try lra; try exact half_fair.
  split; [reflexivity | repeat constructor].
Defined.

Lemma has_shape_numel r c t : has_shape r c t -> length (concat t) = (r * c)%nat.
Proof.
  intros [Hl HF]. subst r. induction t as [|row t IH]; [reflexivity|].
  inversion HF as [|? ? Hrow HF']; subst.
  cbn [concat length]. rewrite length_app, IH by assumption. lia.
Qed.

(** X11.  The prediction fits the image it is reshaped to.  For a
    network from 2 inputs to 1 output, the prediction on the
    coordinates of an [r] by [c] image has exactly [r * c] values,
    the number of pixels [reshape(size)] asks for. *)
Theorem prediction_fits_image (nr_hidden hiddendim : Z)
    (outermost_linear : bool) (first_omega hidden_omega : R)
    (g : Generator) (r c : nat) :
  (0 < hiddendim)%Z -> 0 < hidden_omega -> fair g ->
  exists net g',
    Siren_init 2 1 nr_hidden hiddendim outermost_linear
               first_omega hidden_omega g = Ok (net, g') /\
    length (flatten (Siren_forward net
                       (coords_batch (image_coordinates (r, c)))))
    = (r * c)%nat.
Proof.
  intros Hh Hom Hg.
  destruct (sw_Siren_init_shaped 2 1 nr_hidden hiddendim outermost_linear
              first_omega hidden_omega ltac:(lia) ltac:(lia) Hh Hom g Hg)
    as (net & g' & E & _ & Hnet).
  exists net, g'. split; [exact E|]. unfold flatten.
  rewrite (has_shape_numel _ _ _ (Siren_forward_shape _ _ _ _ _ _ Hnet)).
  unfold coords_batch. rewrite length_map, image_coordinates_length.
  change (Z.to_nat 1) with 1%nat. lia.
Qed.

Lemma prediction_fits_image_witness :
  exists net g',
    Siren_init 2 1 3 4 true 30 30 half = Ok (net, g') /\
    length (flatten (Siren_forward net
                       (coords_batch (image_coordinates (5%nat, 7%nat)))))
    = (5 * 7)%nat.
Proof.
  apply (prediction_fits_image 3 4 true 30 30 half 5 7);
    [lia | lra | exact half_fair].
Defined.

(** ** The parameters of a network *)

Lemma count_parameters_fold ps shapes total :
  fold_left (fun '(params_shapes, params_total_number) param =>
               (params_shapes ++ [param_shape param],
                (params_total_number + numel param)%nat))
            ps (shapes, total)
  = (shapes ++ map param_shape ps,
     (total + list_sum (map numel ps))%nat).
Proof.
  revert shapes total. induction ps as [|p ps IH]; intros shapes total.
  - cbn. now rewrite app_nil_r, Nat.add_0_r.
  - cbn [fold_left map list_sum fold_right]. rewrite IH.
    rewrite <- app_assoc. cbn [app]. f_equal.
    change (fold_right Nat.add 0%nat (map numel ps))
      with (list_sum (map numel ps)). lia.
Qed.

Lemma Layer_shaped_parameters n_in n_out l :
  (1 <= n_out)%nat -> Layer_shaped n_in n_out l ->
  map param_shape (Linear_parameters (Layer_linear l))
  = [[n_out; n_in]; [n_out]] /\
  list_sum (map numel (Linear_parameters (Layer_linear l)))
  = (n_out * n_in + n_out)%nat.
Proof.
  intros Ho [Hw (b & Hb & Hlen)]. unfold Linear_parameters. rewrite Hb.
  cbn [map param_shape numel list_sum fold_right].
  rewrite (has_shape_numel _ _ _ Hw), Hlen.
  pose proof (has_shape_shape2 _ _ _ Ho Hw) as Hs. unfold shape2 in Hs.
  injection Hs as -> ->. split; [reflexivity | lia].
Qed.

Lemma hidden_parameters h hidden :
  (1 <= h)%nat -> Forall (Layer_shaped h h) hidden ->
  map param_shape (parameters hidden)
  = concat (repeat [[h; h]; [h]] (length hidden)) /\
  list_sum (map numel (parameters hidden))
  = (length hidden * (h * h + h))%nat.
Proof.
  intros Hh HF. unfold parameters.
  induction HF as [|l hidden Hl HF IH]; [split; reflexivity|].
  destruct IH as [IH1 IH2].
  destruct (Layer_shaped_parameters h h l Hh Hl) as [E1 E2].
  cbn [flat_map length repeat concat].
  rewrite !map_app, list_sum_app, E1, E2, IH1, IH2. split; [reflexivity | lia].
Qed.

(** X12.  The parameter count of a network.  For a network
    constructed with positive sizes, the loop over
    [model.parameters()] finds, in order, a weight of shape
    [(hiddendim, indim)] and a bias of shape [(hiddendim)], then for
    every hidden layer a weight [(hiddendim, hiddendim)] and a bias
    [(hiddendim)], then a weight [(outdim, hiddendim)] and a bias
    [(outdim)]; the total number of parameters is
    [hiddendim * indim + hiddendim
     + nr_hidden * (hiddendim * hiddendim + hiddendim)
     + outdim * hiddendim + outdim]. *)
Theorem Siren_parameter_count (n_in n_out nr_hidden hiddendim : Z)
    (outermost_linear : bool) (first_omega hidden_omega : R)
    (g : Generator) :
  (0 < n_in)%Z -> (0 < n_out)%Z -> (0 < hiddendim)%Z -> 0 < hidden_omega ->
  fair g ->
  let i := Z.to_nat n_in in
  let o := Z.to_nat n_out in
  let k := Z.to_nat nr_hidden in
  let h := Z.to_nat hiddendim in
  exists net g',
    Siren_init n_in n_out nr_hidden hiddendim outermost_linear
               first_omega hidden_omega g = Ok (net, g') /\
    count_parameters net
    = ([[h; i]; [h]] ++ concat (repeat [[h; h]; [h]] k) ++ [[o; h]; [o]],
       (h * i + h + k * (h * h + h) + (o * h + o))%nat).
Proof.
  intros Hi Ho Hh Hom Hg i o k h.
  destruct (sw_Siren_init_shaped n_in n_out nr_hidden hiddendim
              outermost_linear first_omega hidden_omega Hi ltac:(lia)
              Hh Hom g Hg)
    as (net & g' & E & _ & first & hidden & final & -> & Hf & Hlen & Hhid & Hl).
  exists ((first :: hidden) ++ [final]), g'. split; [exact E|].
  fold i o k h in Hf, Hlen, Hhid, Hl.
  assert (H1h : (1 <= h)%nat) by (unfold h; lia).
  assert (H1o : (1 <= o)%nat) by (unfold o; lia).
  unfold count_parameters. rewrite count_parameters_fold. cbn [app].
  destruct (Layer_shaped_parameters i h first H1h Hf) as [F1 F2].
  destruct (hidden_parameters h hidden H1h Hhid) as [M1 M2].
  destruct (Layer_shaped_parameters h o final H1o Hl) as [L1 L2].
  unfold parameters in *. cbn [flat_map app].
  rewrite !flat_map_app. cbn [flat_map]. rewrite !app_nil_r.
  rewrite !map_app, !list_sum_app, F1, F2, M1, M2, L1, L2, Hlen.
  cbn [app]. f_equal. lia.
Qed.

Lemma Siren_parameter_count_witness :
  exists net g',
    Siren_init 2 1 3 4 true 30 30 half = Ok (net, g') /\
    count_parameters net
    = ([[4; 2]; [4]; [4; 4]; [4]; [4; 4]; [4]; [4; 4]; [4]; [1; 4]; [1]],
       77)%nat.
Proof.
  apply (Siren_parameter_count 2 1 3 4 true 30 30 half);
    try lia; try lra; exact half_fair.
Defined.

(** ** A first layer with frequency zero *)

Lemma map_const_length {A B} (c : B) (x1 x2 : list A) :
  length x1 = length x2 -> map (fun _ => c) x1 = map (fun _ => c) x2.
Proof. intros Hl. now rewrite !map_const, Hl. Qed.

Lemma SineLayer_forward_omega_zero l x :
  omega l = 0 ->
  SineLayer_forward l x
  = map (fun _ => repeat 0 (match bias (linear l) with
                            | Some b => Nat.min (length (weight (linear l)))
                                                (length b)
                            | None => length (weight (linear l))
                            end)) x.
Proof.
  intros Hom. unfold SineLayer_forward, Linear_forward. rewrite Hom, map_map.
  apply map_ext. intros row.
  erewrite map_ext by (intros v; rewrite Rmult_0_l, sin_0; reflexivity).
  rewrite map_const. f_equal.
  destruct (bias (linear l)); now rewrite ?zipWith_length, length_map.
Qed.

(** X13.  A network whose first layer has frequency 0 ignores its
    input.  The constructor accepts [first_omega = 0]; the network it
    returns gives the same output for any two batches of the same
    size. *)
Theorem Siren_first_omega_zero_constant (n_in n_out nr_hidden hiddendim : Z)
    (outermost_linear : bool) (hidden_omega : R) (g : Generator) :
  (0 < n_in)%Z -> (0 <= n_out)%Z -> (0 < hiddendim)%Z -> 0 < hidden_omega ->
  fair g ->
  exists net g',
    Siren_init n_in n_out nr_hidden hiddendim outermost_linear
               0 hidden_omega g = Ok (net, g') /\
    forall x1 x2, length x1 = length x2 ->
                  Siren_forward net x1 = Siren_forward net x2.
Proof.
  intros Hi Ho Hh Hom Hg.
  destruct (sw_Siren_init n_in n_out nr_hidden hiddendim outermost_linear
              0 hidden_omega Hi Ho Hh Hom g Hg)
    as (net & g' & E & _ & first & hidden & final & -> & _ & Hfo & _).
  eexists. exists g'. split; [exact E|].
  intros x1 x2 Hlen. unfold Siren_forward. cbn [app fold_left Layer_forward].
  rewrite !SineLayer_forward_omega_zero by assumption.
  now rewrite (map_const_length _ x1 x2).
Qed.

Lemma Siren_first_omega_zero_constant_witness :
  exists net g',
    Siren_init 2 1 3 4 true 0 30 half = Ok (net, g') /\
    forall x1 x2, length x1 = length x2 ->
                  Siren_forward net x1 = Siren_forward net x2.
Proof.
  apply (Siren_first_omega_zero_constant 2 1 3 4 true 30 half);
    try lia; try lra; exact half_fair.
Defined.

(** ** The loss *)

Lemma Rsum_squares_nonneg (l : list R) : 0 <= Rsum (map (fun d => d ^ 2) l).
Proof.
  induction l as [|d l IH]; [simpl; lra|].
  cbn [map]. unfold Rsum in *. cbn [fold_right].
  pose proof (pow2_ge_0 d). lra.
Qed.

Lemma Rsum_squares_zero (l : list R) :
  Rsum (map (fun d => d ^ 2) l) = 0 -> Forall (fun d => d = 0) l.
Proof.
  induction l as [|d l IH]; intros H; [constructor|].
  cbn [map] in H. unfold Rsum in *. cbn [fold_right] in H.
  pose proof (pow2_ge_0 d). pose proof (Rsum_squares_nonneg l) as Hl.
  unfold Rsum in Hl.
  constructor.
  - assert (Hd : d ^ 2 = 0) by lra. simpl in Hd. nra.
  - apply IH. lra.
Qed.

Lemma zipWith_Rminus_zero u v :
  length u = length v ->
  Forall (fun d => d = 0) (zipWith Rminus u v) -> u = v.
Proof.
  revert v. induction u as [|a u IH]; intros [|b v] Hl HF;
    try discriminate; [reflexivity|].
  cbn [zipWith] in HF. inversion HF as [|? ? Hd HF']; subst.
  f_equal; [lra|]. apply IH; [simpl in Hl; lia | assumption].
Qed.

Lemma zipWith_Rminus_self u :
  map (fun d => d ^ 2) (zipWith Rminus u u) = map (fun _ => 0) u.
Proof.
  induction u as [|a u IH]; [reflexivity|].
  cbn [zipWith map]. rewrite IH. f_equal. ring.
Qed.

(** X14.  The squared-error loss.  For a prediction of one value per
    row and a target with the same positive number of values, the loss is never negative,
    and it is zero exactly when the squeezed prediction equals the
    flattened target. *)
Theorem loss_zero_iff_equal (pred target : Tensor2) :
  Forall (fun row => length row = 1%nat) pred ->
  length (squeeze pred) = length (flatten target) ->
  (1 <= length (squeeze pred))%nat ->
  0 <= loss pred target /\
  (loss pred target = 0 <-> squeeze pred = flatten target).
Proof.
  intros _ Hlen Hpos. unfold loss.
  set (u := squeeze pred) in *. set (v := flatten target) in *.
  assert (Hn : 0 < INR (length (map (fun d => d ^ 2) (zipWith Rminus u v)))).
  { rewrite length_map, zipWith_length, <- Hlen, Nat.min_id.
    apply lt_0_INR. lia. }
  unfold mean. split; [|split].
  - apply Rmult_le_pos; [apply Rsum_squares_nonneg|].
    now apply Rlt_le, Rinv_0_lt_compat.
  - intros H0. apply zipWith_Rminus_zero; [exact Hlen|].
    apply Rsum_squares_zero.
    apply (Rmult_eq_reg_r (/ INR (length (map (fun d => d ^ 2)
                                              (zipWith Rminus u v))))).
    + unfold Rdiv in H0. rewrite H0. ring.
    + apply Rinv_neq_0_compat. lra.
  - intros ->. rewrite zipWith_Rminus_self.
    replace (Rsum (map (fun _ => 0) v)) with 0; [unfold Rdiv; ring|].
    clear. induction v as [|a v IH]; [reflexivity|].
    cbn [map]. unfold Rsum in *. cbn [fold_right]. rewrite <- IH. ring.
Qed.

Lemma loss_zero_iff_equal_witness :
  0 <= loss [[1]; [2]; [3]; [4]] image_1234 /\
  (loss [[1]; [2]; [3]; [4]] image_1234 = 0
   <-> squeeze [[1]; [2]; [3]; [4]] = flatten image_1234).
Proof.
  apply (loss_zero_iff_equal [[1]; [2]; [3]; [4]] image_1234);
    [repeat constructor | simpl; lia | simpl; lia].
Defined.

(** ** The two notebooks build the same layers *)

(** X15.  The sine layer of the introductory notebook is the sine
    layer of the tomography notebook: from the same generator both
    constructors raise or both return, with the same weights, bias and
    generator state; only a non-first layer with [omega = 0] is
    left out (the two fail there with different errors). *)
Theorem intro_SineLayer_same (n_in n_out : Z) (with_bias first : bool)
    (om : R) (g : Generator) :
  first = true \/ om <> 0 ->
  Intro.SineLayer_init n_in n_out with_bias first om g
  = fmap to_intro (SineLayer_init n_in n_out with_bias first om) g.
Proof. apply intro_SineLayer_init_agrees. Qed.

Lemma intro_SineLayer_same_witness :
  Intro.SineLayer_init 2 3 true false 30 half
  = fmap to_intro (SineLayer_init 2 3 true false 30) half.
Proof. apply intro_SineLayer_same. right. lra. Defined.

(** X16.  The network of the introductory notebook is the network of
    the tomography notebook with [outermost_linear = True]: for a
    non-zero hidden omega both constructors raise or both return the
    same layers from the same generator. *)
Theorem intro_Siren_same (n_in n_out nr_hidden hiddendim : Z)
    (first_omega hidden_omega : R) (g : Generator) :
  hidden_omega <> 0 ->
  Intro.Siren_init n_in n_out nr_hidden hiddendim first_omega hidden_omega g
  = fmap (map to_intro_layer)
         (Siren_init n_in n_out nr_hidden hiddendim true
                     first_omega hidden_omega) g.
Proof. apply intro_Siren_init_agrees. Qed.

Lemma intro_Siren_same_witness :
  Intro.Siren_init 2 1 3 256 30 30 half
  = fmap (map to_intro_layer) (Siren_init 2 1 3 256 true 30 30) half.
Proof. apply intro_Siren_same. lra. Defined.

(** ** Division by zero at construction *)

Lemma SineLayer_init_zero_indim n_out with_bias first om g :
  (0 <= n_out)%Z -> fair g ->
  SineLayer_init 0 n_out with_bias first om g = Raise ZeroDivisionError.
Proof.
  intros Ho Hg.
  destruct (sw_nn_Linear 0 n_out with_bias ltac:(lia) Ho g Hg)
    as (l0 & g1 & E0 & _).
  unfold SineLayer_init. rewrite bind_run, E0, bind_run.
  destruct first; rewrite bind_run; reflexivity.
Qed.

Lemma mapM_all_raise {A B} (f : A -> M B) e l g :
  (forall a, f a g = Raise e) ->
  mapM f l g = match l with [] => Ok ([], g) | _ => Raise e end.
Proof.
  intros Hf. destruct l as [|a l]; [reflexivity|].
  cbn [mapM]. now rewrite bind_run, Hf.
Qed.

(** X17.  A hidden width of zero is not caught by any check: the
    construction of the network runs until it divides by the width and
    fails with Python's [ZeroDivisionError]. *)
Theorem Siren_zero_width_error (n_in n_out nr_hidden : Z)
    (outermost_linear : bool) (first_omega hidden_omega : R)
    (g : Generator) :
  (0 < n_in)%Z -> (0 <= n_out)%Z -> fair g ->
  Siren_init n_in n_out nr_hidden 0 outermost_linear
             first_omega hidden_omega g = Raise ZeroDivisionError.
Proof.
  intros Hi Ho Hg.
  destruct (sw_SineLayer_init n_in 0 true true first_omega Hi ltac:(lia)
              ltac:(discriminate) g Hg) as (first & g1 & E1 & Hg1 & _).
  unfold Siren_init. rewrite bind_run, E1, bind_run.
  rewrite (mapM_all_raise _ ZeroDivisionError)
    by (intros; apply SineLayer_init_zero_indim; [lia | exact Hg1]).
  destruct (range nr_hidden); [|reflexivity].
  rewrite bind_run. destruct outermost_linear.
  - destruct (sw_nn_Linear 0 n_out true ltac:(lia) Ho g1 Hg1)
      as (l0 & g2 & E2 & _).
    rewrite bind_run, E2, bind_run. reflexivity.
  - rewrite bind_run, SineLayer_init_zero_indim by assumption. reflexivity.
Qed.

Lemma Siren_zero_width_error_witness :
  Siren_init 2 1 3 0 true 30 30 half = Raise ZeroDivisionError.
Proof.
  apply Siren_zero_width_error; [lia | lia | exact half_fair].
Defined.

(** ** The interpolator on its grid *)

Lemma linspace_increasing n i j :
  (2 <= n)%nat -> (i < j)%nat -> (j < n)%nat ->
  nth i (linspace (-1) 1 n) 0 < nth j (linspace (-1) 1 n) 0.
Proof.
  intros Hn Hij Hj. rewrite !linspace_nth by lia.
  assert (Hpos : 0 < INR (n - 1)) by (apply lt_0_INR; lia).
  assert (Hstep : 0 < (1 - -1) / INR (n - 1)).
  { apply Rdiv_lt_0_compat; lra. }
  assert (INR i < INR j) by now apply lt_INR.
  nra.
Qed.

Lemma tabulate_S {A} n (f : nat -> A) :
  tabulate (S n) f = tabulate n f ++ [f n].
Proof. unfold tabulate. now rewrite seq_S, map_app. Qed.

(** On an array whose entries pass the test up to some index and fail
    from it on, the number of entries that pass is that index. *)
Lemma count_prefix {A} (P : A -> bool) (f : nat -> A) n :
  (forall k k', (k' <= k)%nat -> (k < n)%nat ->
                P (f k) = true -> P (f k') = true) ->
  forall k, (k < n)%nat ->
    (P (f k) = true <-> (k < length (filter P (tabulate n f)))%nat).
Proof.
  intros Hdown. induction n as [|n IH]; intros k Hk; [lia|].
  rewrite tabulate_S, filter_app, length_app.
  assert (IH' : forall k, (k < n)%nat ->
            (P (f k) = true <-> (k < length (filter P (tabulate n f)))%nat)).
  { apply IH. intros a b Hab Ha. apply Hdown; lia. }
  assert (Hle : (length (filter P (tabulate n f)) <= n)%nat).
  { rewrite <- (tabulate_length n f) at 2. apply filter_length_le. }
  cbn [filter]. destruct (P (f n)) eqn:Pn; cbn [length].
  - assert (Hall : forall a, (a < n)%nat -> P (f a) = true).
    { intros a Ha. apply (Hdown n a); [lia | lia | exact Pn]. }
    assert (Hfull : length (filter P (tabulate n f)) = n).
    { destruct n as [|m]; [reflexivity|].
      pose proof (proj1 (IH' m ltac:(lia)) (Hall m ltac:(lia))). lia. }
    rewrite Hfull. split; [lia|]. intros _.
    destruct (Nat.eq_dec k n) as [->|Hne]; [exact Pn | apply Hall; lia].
  - rewrite Nat.add_0_r.
    destruct (Nat.eq_dec k n) as [->|Hne].
    + rewrite Pn. split; [discriminate | lia].
    + apply IH'. lia.
Qed.

Lemma Rltb_spec a b : Rltb a b = true <-> a < b.
Proof.
  unfold Rltb. destruct (Rlt_dec a b); split; auto; discriminate.
Qed.

(** The cell search brackets every point of the axis: the cell found
    contains the point, so the fraction lies between 0 and 1. *)
Lemma find_index_bracket n x :
  (2 <= n)%nat -> -1 <= x <= 1 ->
  let grid := linspace (-1) 1 n in
  let '(i, t) := find_index grid x in
  (S i < n)%nat /\ 0 <= t <= 1 /\
  x = (1 - t) * nth i grid 0 + t * nth (S i) grid 0.
Proof.
  intros Hn Hx grid. unfold find_index. fold grid.
  assert (Hlen : length grid = n) by apply linspace_length. rewrite Hlen.
  set (cnt := searchsorted grid x).
  set (i := Nat.min (cnt - 1) (n - 2)).
  assert (Hi : (S i < n)%nat) by (unfold i; lia).
  assert (Hstep : nth i grid 0 < nth (S i) grid 0).
  { unfold grid. apply linspace_increasing; lia. }
  assert (Hcount : forall k, (k < n)%nat ->
            (nth k grid 0 < x <-> (k < cnt)%nat)).
  { intros k Hk. rewrite <- Rltb_spec.
    unfold grid at 1. rewrite linspace_nth by exact Hk.
    unfold cnt, searchsorted, grid, linspace.
    apply (count_prefix (fun g => Rltb g x)
             (fun i => -1 + INR i * ((1 - -1) / INR (n - 1)))); [|exact Hk].
    intros a b Hab Ha. rewrite !Rltb_spec.
    destruct (Nat.eq_dec a b) as [->|Hne]; [auto|].
    intros Hlt.
    pose proof (linspace_increasing n b a Hn ltac:(lia) Ha) as Hinc.
    rewrite !linspace_nth in Hinc by lia. lra. }
  assert (Hfirst : nth 0 grid 0 = -1) by (apply linspace_first; lia).
  assert (Hlast : nth (n - 1) grid 0 = 1) by (apply linspace_last; lia).
  assert (Hlo : nth i grid 0 <= x).
  { destruct (Nat.eq_dec cnt 0) as [E0|E0].
    - replace i with 0%nat by (unfold i; lia). lra.
    - destruct (Nat.le_gt_cases n cnt) as [Hbig|Hsmall].
      + pose proof (proj2 (Hcount (n - 1)%nat ltac:(lia)) ltac:(lia)). lra.
      + replace i with (cnt - 1)%nat by (unfold i; lia).
        apply Rlt_le, Hcount; lia. }
  assert (Hhi : x <= nth (S i) grid 0).
  { destruct (Nat.le_gt_cases n cnt) as [Hbig|Hsmall].
    - pose proof (proj2 (Hcount (n - 1)%nat ltac:(lia)) ltac:(lia)). lra.
    - destruct (Nat.eq_dec cnt 0) as [E0|E0].
      + apply Rnot_lt_le. intros Hlt.
        assert (Hc : (S i < cnt)%nat) by (apply Hcount; [lia | exact Hlt]).
        lia.
      + replace (S i) with cnt by (unfold i; lia).
        apply Rnot_lt_le. intros Hlt.
        pose proof (proj1 (Hcount cnt Hsmall) Hlt). lia. }
  split; [exact Hi|].
  set (lo := nth i grid 0) in *. set (hi := nth (S i) grid 0) in *.
  assert (Hd : 0 < hi - lo) by lra.
  split.
  - split.
    + apply Rmult_le_pos; [lra | now apply Rlt_le, Rinv_0_lt_compat].
    + apply (Rmult_le_reg_r (hi - lo)); [exact Hd|].
      unfold Rdiv. rewrite Rmult_assoc, Rinv_l by lra. lra.
  - field. lra.
Qed.

(** Inside the square the interpolated value is a blend of four
    neighbouring pixels with weights between 0 and 1. *)
Lemma interp_image_inside r c image x y :
  (2 <= r)%nat -> (2 <= c)%nat -> has_shape r c image ->
  inside_square x y ->
  exists i j tx ty,
    find_index (linspace (-1) 1 r) x = (i, tx) /\
    find_index (linspace (-1) 1 c) y = (j, ty) /\
    (S i < r)%nat /\ (S j < c)%nat /\ 0 <= tx <= 1 /\ 0 <= ty <= 1 /\
    interp_image image (x, y)
    = (1 - tx) * ((1 - ty) * nth j (nth i image []) 0
                  + ty * nth (S j) (nth i image []) 0)
      + tx * ((1 - ty) * nth j (nth (S i) image []) 0
              + ty * nth (S j) (nth (S i) image []) 0).
Proof.
  intros Hr Hc Hshape [Hx Hy].
  pose proof (find_index_bracket r x Hr Hx) as Bx.
  pose proof (find_index_bracket c y Hc Hy) as By.
  cbv zeta in Bx, By.
  unfold interp_image. rewrite (has_shape_shape2 r c) by (auto; lia).
  unfold RegularGridInterpolator.
  destruct (find_index (linspace (-1) 1 r) x) as [i tx].
  destruct (find_index (linspace (-1) 1 c) y) as [j ty].
  destruct Bx as (Hi & Htx & _). destruct By as (Hj & Hty & _).
  exists i, j, tx, ty. repeat (split; [tauto|]).
  rewrite !out_of_bounds_inside by assumption. cbn [orb]. ring.
Qed.

Lemma entries_within_nth lo hi r c t a b :
  has_shape r c t -> entries_within lo hi t -> (a < r)%nat -> (b < c)%nat ->
  lo <= nth b (nth a t []) 0 <= hi.
Proof.
  intros [Hl HF] Hin Ha Hb. unfold entries_within in Hin.
  rewrite Forall_forall in Hin, HF.
  assert (Hrow : In (nth a t []) t) by (apply nth_In; lia).
  specialize (Hin _ Hrow). rewrite Forall_forall in Hin.
  apply Hin, nth_In. rewrite (HF _ Hrow). exact Hb.
Qed.

Lemma blend_within lo hi t a b :
  0 <= t <= 1 -> lo <= a <= hi -> lo <= b <= hi ->
  lo <= (1 - t) * a + t * b <= hi.
Proof. intros. nra. Qed.

Lemma interp_image_within lo hi r c image p :
  (2 <= r)%nat -> (2 <= c)%nat -> has_shape r c image ->
  entries_within lo hi image -> lo <= 0 <= hi ->
  lo <= interp_image image p <= hi.
Proof.
  intros Hr Hc Hshape Hin H0. destruct p as [x y].
  assert (Hout : outside_square x y -> lo <= interp_image image (x, y) <= hi).
  { intros Ho. pose proof (has_shape_shape2 r c image ltac:(lia) Hshape) as Hs.
    unfold shape2 in Hs. injection Hs as Hs1 Hs2.
    rewrite interp_image_outside; [exact H0 | lia | lia | exact Ho]. }
  unfold outside_square in Hout.
  destruct (Rlt_dec x (-1)) as [?|?]; [apply Hout; auto|].
  destruct (Rlt_dec 1 x) as [?|?]; [apply Hout; auto|].
  destruct (Rlt_dec y (-1)) as [?|?]; [apply Hout; auto|].
  destruct (Rlt_dec 1 y) as [?|?]; [apply Hout; auto|].
  clear Hout.
  destruct (interp_image_inside r c image x y Hr Hc Hshape)
    as (i & j & tx & ty & _ & _ & Hi & Hj & Htx & Hty & ->).
  { unfold inside_square. lra. }
  destruct Hshape as [Hl HF].
  repeat apply blend_within; try assumption;
    apply (entries_within_nth lo hi r c); try assumption;
    try (split; assumption); lia.
Qed.

Lemma mean_within {A} lo hi (f : A -> R) l :
  l <> [] -> (forall a, lo <= f a <= hi) -> lo <= mean (map f l) <= hi.
Proof.
  intros Hne Hf. unfold mean. rewrite length_map.
  assert (Hn : 0 < INR (length l)).
  { apply lt_0_INR. destruct l; [congruence | simpl; lia]. }
  assert (Hs : INR (length l) * lo <= Rsum (map f l) <= INR (length l) * hi).
  { clear Hne Hn. induction l as [|a l IH].
    - simpl. lra.
    - change (Rsum (map f (a :: l))) with (f a + Rsum (map f l)).
      change (length (a :: l)) with (S (length l)). rewrite S_INR.
      specialize (Hf a). lra. }
  split.
  - apply (Rmult_le_reg_r (INR (length l))); [exact Hn|].
    unfold Rdiv. rewrite Rmult_assoc, Rinv_l by lra. lra.
  - apply (Rmult_le_reg_r (INR (length l))); [exact Hn|].
    unfold Rdiv. rewrite Rmult_assoc, Rinv_l by lra. lra.
Qed.

(** X18.  The projection stays within the range of the image.  If
    every pixel of the image lies in [[lo, hi]] and that interval
    contains 0 (the value used outside the image), every entry of the
    sinogram lies in [[lo, hi]], at every angle. *)
Theorem project_image_within (lo hi : R) (r c : nat) (image : Tensor2)
    (thetas : list R) (nr_B : Z) (nr_S : option Z) :
  (2 <= r)%nat -> (2 <= c)%nat -> has_shape r c image ->
  entries_within lo hi image -> lo <= 0 <= hi ->
  (1 <= nr_B)%Z -> (1 <= py_or nr_S nr_B)%Z ->
  exists p, project_image image thetas nr_B nr_S = Ok p /\
            entries_within lo hi p.
Proof.
  intros Hr Hc Hshape Hin H0 HB HS.
  rewrite (project_image_rows _ _ nr_B (py_or nr_S nr_B)) by auto.
  eexists. split; [reflexivity|]. unfold entries_within.
  apply Forall_map, Forall_forall. intros theta _.
  apply Forall_map, Forall_forall. intros sj _.
  apply mean_within; [apply linspace_nonempty; lia|].
  intros bi. now apply (interp_image_within lo hi r c).
Qed.

Lemma project_image_within_witness :
  exists p, project_image image_1234 [0; PI / 3] 5 None = Ok p /\
            entries_within 0 4 p.
Proof.
  apply (project_image_within 0 4 2 2 image_1234 [0; PI / 3] 5 None);
    try (simpl; lia); try lra.
  - split; [reflexivity | repeat constructor].
  - unfold image_1234. repeat constructor; lra.
Defined.

(** At a grid line the cell search lands on the line itself: whatever
    is blended there, the blend is the value on that line. *)
Lemma find_index_node n k :
  (2 <= n)%nat -> (k < n)%nat ->
  let grid := linspace (-1) 1 n in
  let '(i, t) := find_index grid (nth k grid 0) in
  forall v : nat -> R, (1 - t) * v i + t * v (S i) = v k.
Proof.
  intros Hn Hk grid.
  assert (Hx : -1 <= nth k grid 0 <= 1)
    by (apply linspace_bounds; [lra | exact Hk]).
  pose proof (find_index_bracket n (nth k grid 0) Hn Hx) as Br.
  cbv zeta in Br. fold grid in Br.
  destruct (find_index grid (nth k grid 0)) as [i t].
  destruct Br as (Hi & Ht & Hxeq). intros v.
  assert (Hstep : nth i grid 0 < nth (S i) grid 0)
    by (apply linspace_increasing; lia).
  assert (Hcases : k = i \/ k = S i).
  { destruct (Nat.lt_ge_cases k i) as [Hlt|Hge].
    - pose proof (linspace_increasing n k i Hn Hlt ltac:(lia)) as H1.
      fold grid in H1. nra.
    - destruct (Nat.lt_ge_cases (S i) k) as [Hgt|Hle]; [|lia].
      pose proof (linspace_increasing n (S i) k Hn Hgt Hk) as H1.
      fold grid in H1. nra. }
  destruct Hcases as [->| ->].
  - assert (t = 0) by nra. subst t. ring.
  - assert (t = 1) by nra. subst t. ring.
Qed.

Lemma interp_image_node r c image i j :
  (2 <= r)%nat -> (2 <= c)%nat -> has_shape r c image ->
  (i < r)%nat -> (j < c)%nat ->
  interp_image image (nth i (linspace (-1) 1 r) 0, nth j (linspace (-1) 1 c) 0)
  = nth j (nth i image []) 0.
Proof.
  intros Hr Hc Hshape Hi Hj.
  pose proof (find_index_node r i Hr Hi) as Nx.
  pose proof (find_index_node c j Hc Hj) as Ny. cbv zeta in Nx, Ny.
  destruct (interp_image_inside r c image
              (nth i (linspace (-1) 1 r) 0) (nth j (linspace (-1) 1 c) 0)
              Hr Hc Hshape)
    as (a & b & tx & ty & Ex & Ey & _ & _ & _ & _ & ->).
  { split; apply linspace_bounds; lra || assumption. }
  rewrite Ex in Nx. rewrite Ey in Ny.
  rewrite (Ny (fun l => nth l (nth a image []) 0)).
  rewrite (Ny (fun l => nth l (nth (S a) image []) 0)).
  apply (Nx (fun k => nth j (nth k image []) 0)).
Qed.

(** X19.  Sampling the interpolated image at the pixel coordinates
    gives the image back: for an image of shape [(r, c)] with at least
    two rows and columns, the interpolator that [project_image]
    builds, evaluated at [image_coordinates((r, c))], returns the
    flattened image. *)
Theorem interp_at_image_coordinates (r c : nat) (image : Tensor2) :
  (2 <= r)%nat -> (2 <= c)%nat -> has_shape r c image ->
  map (interp_image image) (image_coordinates (r, c)) = flatten image.
Proof.
  intros Hr Hc Hshape. unfold flatten.
  rewrite image_coordinates_rows, concat_map, map_map. f_equal.
  destruct Hshape as [Hl HF].
  apply (nth_ext _ _ [] []).
  - now rewrite length_map, linspace_length.
  - intros i Hi. rewrite length_map, linspace_length in Hi.
    rewrite (nth_map_in _ _ i [] 0) by now rewrite linspace_length.
    rewrite map_map.
    assert (Hrow : length (nth i image []) = c).
    { rewrite Forall_forall in HF. apply HF, nth_In. lia. }
    apply (nth_ext _ _ 0 0).
    + now rewrite length_map, linspace_length.
    + intros j Hj. rewrite length_map, linspace_length in Hj.
      rewrite (nth_map_in _ _ j 0 0) by now rewrite linspace_length.
      apply (interp_image_node r c); auto. split; assumption.
Qed.

Lemma interp_at_image_coordinates_witness :
  map (interp_image image_1234) (image_coordinates (2%nat, 2%nat))
  = flatten image_1234.
Proof.
  apply interp_at_image_coordinates; try lia.
  split; [reflexivity | repeat constructor].
Defined.

(** ** The two projectors on the same field *)

(** X20.  The model projector at [theta] is the image projector at
    [- theta].  When the model is the interpolated image itself, read
    at the point it is handed, and bin and sample counts are equal,
    [project_model] at angle [theta] returns the sinogram row that
    [project_image] returns at angle [- theta]. *)
Theorem project_model_is_project_image_reversed (image : Tensor2)
    (theta : R) (n : nat) (L_embed : Z) :
  (1 <= n)%nat ->
  project_image image [- theta] (Z.of_nat n) None
  = Ok [project_model no_encoding
          (pointwise (fun p => interp_image image (nth 0 p 0, nth 1 p 0)))
          theta n n L_embed].
Proof.
  intros Hn.
  rewrite (project_image_rows _ _ (Z.of_nat n) (Z.of_nat n))
    by (simpl; lia).
  rewrite (project_model_square_rows (fun p => p))
    by (intros; unfold no_encoding; symmetry; apply map_id).
  rewrite Nat2Z.id. cbn [map]. do 2 f_equal.
  apply map_ext. intros sk. unfold mean.
  rewrite length_map, linspace_length. unfold Rdiv.
  rewrite Rmult_1_l, Rmult_comm. f_equal. f_equal.
  apply map_ext. intros bl. cbn [nth]. unfold specified_point.
  rewrite cos_neg, sin_neg. f_equal. f_equal; ring.
Qed.

Lemma project_model_is_project_image_reversed_witness :
  project_image image_1234 [- (PI / 6)] (Z.of_nat 4) None
  = Ok [project_model no_encoding
          (pointwise (fun p => interp_image image_1234 (nth 0 p 0, nth 1 p 0)))
          (PI / 6) 4 4 6].
Proof. apply project_model_is_project_image_reversed. lia. Defined.

(** ** The points of the grid are distinct *)

Lemma linspace_injective n i j :
  (i < n)%nat -> (j < n)%nat ->
  nth i (linspace (-1) 1 n) 0 = nth j (linspace (-1) 1 n) 0 -> i = j.
Proof.
  intros Hi Hj E.
  destruct (Nat.lt_ge_cases n 2) as [Hsmall|Hn]; [lia|].
  destruct (Nat.lt_trichotomy i j) as [Hlt|[Heq|Hgt]]; [|exact Heq|].
  - pose proof (linspace_increasing n i j Hn Hlt Hj). lra.
  - pose proof (linspace_increasing n j i Hn Hgt Hi). lra.
Qed.

(** X21.  No two pixels share a coordinate: the points of the grid of
    an [r] by [c] image are pairwise distinct. *)
Theorem image_coordinates_distinct (r c : nat) :
  NoDup (image_coordinates (r, c)).
Proof.
  apply (NoDup_nth _ (0, 0)). intros a b Ha Hb E.
  rewrite image_coordinates_length in Ha, Hb.
  assert (Hc : c <> 0%nat) by (intros ->; lia).
  rewrite !image_coordinates_index in E by assumption.
  injection E as E1 E2.
  apply linspace_injective in E1;
    [|apply Nat.Div0.div_lt_upper_bound; lia ..].
  apply linspace_injective in E2; [|now apply Nat.mod_upper_bound ..].
  rewrite (Nat.div_mod a c Hc), (Nat.div_mod b c Hc). congruence.
Qed.

(** ** The output of a freshly constructed network *)

Lemma dot_bound (a w : list R) (B : R) :
  0 <= B -> Forall (fun v => -1 <= v <= 1) a ->
  Forall (fun v => - B <= v <= B) w ->
  - (INR (length w) * B) <= dot a w <= INR (length w) * B.
Proof.
  intros HB Ha. revert w. unfold dot.
  induction Ha as [|x a Hx Ha IH]; intros w Hw.
  - unfold Rsum. cbn [zipWith fold_right].
    pose proof (pos_INR (length w)). nra.
  - destruct w as [|y w].
    + simpl. lra.
    + inversion Hw as [|? ? Hy Hw']; subst. specialize (IH w Hw').
      cbn [zipWith]. unfold Rsum in *. cbn [fold_right].
      change (length (y :: w)) with (S (length w)). rewrite S_INR.
      assert (- B <= x * y <= B) by nra. lra.
Qed.

Lemma Siren_forward_sines_bounded first hidden x :
  entries_within (-1) 1 (Siren_forward (Sine first :: map Sine hidden) x).
Proof.
  destruct (exists_last (l := Sine first :: map Sine hidden))
    as (prefix & lastl & E); [discriminate|].
  rewrite E, Siren_forward_app.
  assert (Hin : In lastl (Sine first :: map Sine hidden))
    by (rewrite E; apply in_or_app; right; now left).
  assert (Hs : exists s, lastl = Sine s).
  { destruct Hin as [<-|Hin]; [eauto|].
    apply in_map_iff in Hin. destruct Hin as (s & <- & _). eauto. }
  destruct Hs as (s & ->). unfold Siren_forward at 1. cbn [fold_left].
  apply SineLayer_forward_bounded.
Qed.

(** X22.  A freshly constructed network with a plain output layer
    starts close to its output bias: every output value differs from
    the bias of its output unit by at most
    [hiddendim * sqrt(6/hiddendim) / hidden_omega], for every input
    batch. *)
Theorem fresh_output_near_bias (n_in n_out nr_hidden hiddendim : Z)
    (first_omega hidden_omega : R) (g : Generator) (x : Tensor2) :
  (0 < n_in)%Z -> (0 <= n_out)%Z -> (0 < hiddendim)%Z -> 0 < hidden_omega ->
  fair g ->
  exists net g' lin b,
    Siren_init n_in n_out nr_hidden hiddendim true
               first_omega hidden_omega g = Ok (net, g') /\
    last net (Plain lin) = Plain lin /\ bias lin = Some b /\
    forall n k, (n < length x)%nat -> (k < Z.to_nat n_out)%nat ->
      Rabs (nth k (nth n (Siren_forward net x) []) 0 - nth k b 0)
      <= IZR hiddendim * (sqrt (6 / IZR hiddendim) / hidden_omega).
Proof.
  intros Hi Ho Hh Hom Hg.
  destruct (sw_Siren_init n_in n_out nr_hidden hiddendim true
              first_omega hidden_omega Hi Ho Hh Hom g Hg)
    as (net & g' & E & _ & first & hidden & final & -> & _ & _ & _ & _
        & lin & -> & Hw).
  destruct (sw_Siren_init_shaped n_in n_out nr_hidden hiddendim true
              first_omega hidden_omega Hi Ho Hh Hom g Hg)
    as (net2 & g2 & E2 & _ & f2 & h2 & l2 & Enet & _ & _ & _ & Hshape).
  rewrite E in E2. injection E2 as <- _.
  apply (app_inj_tail (Sine first :: map Sine hidden) (f2 :: h2)) in Enet.
  destruct Enet as [_ <-].
  destruct Hshape as [[Hrows Hcols] (b & Hb & Hlen)].
  cbn [Layer_linear] in *.
  exists ((Sine first :: map Sine hidden) ++ [Plain lin]), g', lin, b.
  split; [exact E|]. split; [now rewrite last_last|]. split; [exact Hb|].
  intros n k Hn Hk. rewrite Siren_forward_app.
  unfold Siren_forward at 1. cbn [fold_left Layer_forward].
  set (A := Siren_forward (Sine first :: map Sine hidden) x).
  assert (HA : entries_within (-1) 1 A) by apply Siren_forward_sines_bounded.
  assert (HlenA : length A = length x) by apply Siren_forward_length.
  unfold Linear_forward. rewrite Hb.
  rewrite (nth_map_in _ A n [] []) by lia.
  rewrite (zipWith_nth Rplus _ b k 0 0 0)
    by (rewrite ?length_map; lia).
  rewrite (nth_map_in _ (weight lin) k 0 []) by lia.
  set (a := nth n A []). set (w := nth k (weight lin) []).
  replace (dot a w + nth k b 0 - nth k b 0) with (dot a w) by ring.
  assert (Ha : Forall (fun v => -1 <= v <= 1) a).
  { unfold entries_within in HA. rewrite Forall_forall in HA.
    apply HA, nth_In. lia. }
  assert (Hwk : Forall (fun v => - (sqrt (6 / IZR hiddendim) / hidden_omega)
                                 <= v
                                 <= sqrt (6 / IZR hiddendim) / hidden_omega) w).
  { unfold entries_within in Hw. rewrite Forall_forall in Hw.
    apply Hw, nth_In. lia. }
  assert (Hwlen : length w = Z.to_nat hiddendim).
  { rewrite Forall_forall in Hcols. apply Hcols, nth_In. lia. }
  assert (HB : 0 <= sqrt (6 / IZR hiddendim) / hidden_omega).
  { apply Rmult_le_pos;
      [apply sqrt_pos | apply Rlt_le, Rinv_0_lt_compat, Hom]. }
  pose proof (dot_bound a w _ HB Ha Hwk) as Hd.
  rewrite Hwlen, INR_IZR_INZ, Z2Nat.id in Hd by lia.
  apply Rabs_le. exact Hd.
Qed.

Lemma fresh_output_near_bias_witness :
  exists net g' lin b,
    Siren_init 2 1 3 4 true 30 30 half = Ok (net, g') /\
    last net (Plain lin) = Plain lin /\ bias lin = Some b /\
    forall n k, (n < length [[0; 1]; [1; 0]])%nat -> (k < Z.to_nat 1)%nat ->
      Rabs (nth k (nth n (Siren_forward net [[0; 1]; [1; 0]]) []) 0
            - nth k b 0)
      <= IZR 4 * (sqrt (6 / IZR 4) / 30).
Proof.
  apply (fresh_output_near_bias 2 1 3 4 30 30 half [[0; 1]; [1; 0]]);
    try lia; try lra; exact half_fair.
Defined.
